(** * ThriveHer chat bubble: the markdown rendering pipeline

    A shallow embedding of [src/app/components/chatbubble.tsx]: the
    [MessageBubble] component with its three local parsers
    ([parseMarkdown], [parseInlineMarkdown], [parseTextWithFormatting])
    and the [hasMarkdown] detector, followed by the properties of the
    specification that were checked against it.

    Conventions of the embedding.
    - A JavaScript string is the list of its UTF-16 code units; a code
      unit is a number of type [N].  The regular expressions of the
      source carry no [u] flag, so they work on code units as well.
    - A JSX element is a tree ([node]) with its style list, its
      [onPress] target when it has one, and its children.  The React
      [key] attribute is a reconciliation hint that never reaches the
      rendered output; it is left out.
    - A loop whose termination is not structural ([for] with a cursor
      moved by its body, [while] over [RegExp.exec]) runs on fuel and
      returns [None] when the fuel is gone; the totality theorems show
      that the fuel the model supplies is always enough. *)

From Stdlib Require Import String Ascii.
From Stdlib Require Import List NArith Arith Lia Bool Sorted Permutation.
Import ListNotations.
Local Open Scope nat_scope.
Local Open Scope list_scope.

(** ** JavaScript strings *)

Definition char := N.
Bind Scope N_scope with char.
Definition str := list char.

(** Code units of an ASCII literal, for writing concrete inputs. *)
Fixpoint lit (s : string) : str :=
  match s with
  | EmptyString => []
  | String a r => N_of_ascii a :: lit r
  end.

Arguments lit s%_string.

Definition LF : char := 10%N.
Definition CR : char := 13%N.

Definition isEmpty (s : str) : bool :=
  match s with [] => true | _ => false end.

Module JS.

(** [s.startsWith(p)] *)
Fixpoint startsWith (p s : str) : bool :=
  match p, s with
  | [], _ => true
  | _ :: _, [] => false
  | a :: p', b :: s' => N.eqb a b && startsWith p' s'
  end.

(** [s.includes(p)] *)
Fixpoint includes (p s : str) : bool :=
  startsWith p s ||
  match s with
  | [] => false
  | _ :: s' => includes p s'
  end.

(** [s.substring(a, b)]: the arguments are swapped when [a > b] and
    clamped to the length of [s]. *)
Definition substring (s : str) (a b : nat) : str :=
  firstn (Nat.max a b - Nat.min a b) (skipn (Nat.min a b) s).

(** [s.substring(a)] *)
Definition substringFrom (s : str) (a : nat) : str := skipn a s.

(** [s.split('\n')]: never empty, [''.split('\n')] is [['']]. *)
Fixpoint split (s : str) : list str :=
  match s with
  | [] => [[]]
  | c :: r =>
      if N.eqb c LF then [] :: split r
      else match split r with
           | l :: ls => (c :: l) :: ls
           | [] => [[c]]
           end
  end.

(** [ls.join('\n')] *)
Fixpoint join (ls : list str) : str :=
  match ls with
  | [] => []
  | [l] => l
  | l :: ls' => l ++ LF :: join ls'
  end.

(** LineTerminator of ECMAScript: LF, CR, LS, PS. *)
Definition isLineTerminator (c : char) : bool :=
  N.eqb c 10 || N.eqb c 13 || N.eqb c 8232 || N.eqb c 8233.

(** WhiteSpace of ECMAScript: TAB, VT, FF, ZWNBSP and the space
    separators of Unicode. *)
Definition isWhiteSpace (c : char) : bool :=
  N.eqb c 9 || N.eqb c 11 || N.eqb c 12 || N.eqb c 32 || N.eqb c 160 ||
  N.eqb c 5760 || (N.leb 8192 c && N.leb c 8202) || N.eqb c 8239 ||
  N.eqb c 8287 || N.eqb c 12288 || N.eqb c 65279.

(** The class [\s], also what [trim] strips. *)
Definition isSpace (c : char) : bool := isWhiteSpace c || isLineTerminator c.

(** The class [\d]. *)
Definition isDigit (c : char) : bool := N.leb 48 c && N.leb c 57.

Fixpoint dropWhile (f : char -> bool) (s : str) : str :=
  match s with
  | [] => []
  | c :: r => if f c then dropWhile f r else s
  end.

(** [s.trim()] *)
Definition trim (s : str) : str :=
  rev (dropWhile isSpace (rev (dropWhile isSpace s))).

(** Truthiness of a string: the empty string alone is falsy. *)
Definition truthy (s : str) : bool := negb (isEmpty s).

End JS.

(** ** The regular expressions of the source

    Each pattern of the source is embedded as a matcher that, given the
    text from a candidate position on, returns the matched text with its
    capture groups, as the backtracking matcher of ECMAScript would at
    that position.  [exec] then scans the candidate positions from
    [lastIndex] on, as a [g] regular expression does. *)

Module RegExp.

(** The result of [RegExp.prototype.exec]: [m.index], [m[0]] and the
    capture groups [m[1]], [m[2]], ... *)
Record ExecArray := {
  index : nat;
  whole : str;
  groups : list str
}.

Definition group (n : nat) (m : ExecArray) : str :=
  match n with
  | 0 => whole m
  | S k => nth k (groups m) []
  end.

Definition matcher := str -> option (str * list str).

(** Longest prefix of characters of a class, and what follows it: a
    greedy [[...]+] or [\d+] followed by a character outside the class
    can only stop there. *)
Fixpoint span (f : char -> bool) (s : str) : str * str :=
  match s with
  | [] => ([], [])
  | c :: r =>
      if f c then let (a, b) := span f r in (c :: a, b) else ([], s)
  end.

(** The lazy group [(.*?)] followed by the literal [close]: the
    shortest run of characters other than line terminators, possibly
    empty, after which [close] is found. *)
Fixpoint lazyUntil (close : str) (s : str) : option str :=
  if JS.startsWith close s then Some []
  else match s with
       | [] => None
       | c :: r =>
           if JS.isLineTerminator c then None
           else match lazyUntil close r with
                | Some inner => Some (c :: inner)
                | None => None
                end
       end.

(** [open(.*?)close] for literal delimiters. *)
Definition delimited (open close : str) : matcher := fun s =>
  if JS.startsWith open s then
    match lazyUntil close (skipn (length open) s) with
    | Some inner => Some (open ++ inner ++ close, [inner])
    | None => None
    end
  else None.

(** [/\*\*(.*?)\*\*/] *)
Definition boldRe : matcher := delimited (lit "**") (lit "**").
(** [/\*(.*?)\*/] *)
Definition italicRe : matcher := delimited (lit "*") (lit "*").
(** [/`(.*?)`/] *)
Definition codeRe : matcher := delimited (lit "`") (lit "`").

Definition notChar (x : char) (c : char) : bool := negb (N.eqb c x).

(** [/\[([^\]]+)\]\(([^)]+)\)/] *)
Definition markdownLinkRe : matcher := fun s =>
  match s with
  | 91%N :: r =>
      let (display, r1) := span (notChar 93%N) r in
      if isEmpty display then None
      else match r1 with
           | 93%N :: 40%N :: r2 =>
               let (target, r3) := span (notChar 41%N) r2 in
               if isEmpty target then None
               else match r3 with
                    | 41%N :: _ =>
                        Some (lit "[" ++ display ++ lit "](" ++ target ++ lit ")",
                              [display; target])
                    | _ => None
                    end
           | _ => None
           end
  | _ => None
  end.

(** The negated class of the bare-URL pattern: any character but
    white space, the double quote (code unit 34) and the ten
    characters listed here. *)
Definition urlChar (c : char) : bool :=
  negb (JS.isSpace c ||
        existsb (N.eqb c) (34%N :: lit "<>{}|\^`[]")).

(** [https?] then [:\/\/]: the text after the scheme when it is there. *)
Definition scheme (s : str) : option (str * str) :=
  if JS.startsWith (lit "http") s then
    let r := skipn 4 s in
    let (sch, r') := match r with
                     | 115%N :: r' => (lit "https", r')
                     | _ => (lit "http", r)
                     end in
    if JS.startsWith (lit "://") r' then Some (sch ++ lit "://", skipn 3 r')
    else None
  else None.

(** The bare-URL pattern: [https?:\/\/] and one or more [urlChar]. *)
Definition urlRe : matcher := fun s =>
  match scheme s with
  | Some (pre, r) =>
      let (body, _) := span urlChar r in
      if isEmpty body then None else Some (pre ++ body, [])
  | None => None
  end.

(** [/https?:\/\//] *)
Definition schemeRe : matcher := fun s =>
  match scheme s with
  | Some (pre, _) => Some (pre, [])
  | None => None
  end.

(** [/[*_`#\[\]!-]/] *)
Definition markupCharRe : matcher := fun s =>
  match s with
  | c :: _ => if existsb (N.eqb c) (lit "*_`#[]!-") then Some ([c], []) else None
  | [] => None
  end.

(** The prefix [\d+\.\s]: the digits, the white space character and
    the text after it. *)
Definition orderedPrefix (s : str) : option (str * char * str) :=
  let (digits, r) := span JS.isDigit s in
  if isEmpty digits then None
  else match r with
       | 46%N :: c :: r' => if JS.isSpace c then Some (digits, c, r') else None
       | _ => None
       end.

(** [/^\d+\.\s/], tried at the start of the text only. *)
Definition orderedTestRe : matcher := fun s =>
  match orderedPrefix s with
  | Some (digits, c, _) => Some (digits ++ [46%N; c], [])
  | None => None
  end.

(** The capture pattern of the numbered list: [^(\d+)\.\s], then a
    greedy group of [.] up to [$].  Without the [m] flag [$] is the end
    of the text, and [.] stops at a line terminator. *)
Definition orderedCaptureRe : matcher := fun s =>
  match orderedPrefix s with
  | Some (digits, c, r) =>
      if forallb (fun x => negb (JS.isLineTerminator x)) r
      then Some (s, [digits; r])
      else None
  | None => None
  end.

(** First position from [p] on where the matcher succeeds; [s] is the
    text from position [p]. *)
Fixpoint searchFrom (re : matcher) (s : str) (p : nat) : option ExecArray :=
  match re s with
  | Some (w, gs) => Some {| index := p; whole := w; groups := gs |}
  | None =>
      match s with
      | [] => None
      | _ :: s' => searchFrom re s' (S p)
      end
  end.

(** [re.exec(text)] of a [g] regular expression whose [lastIndex] is
    [lastIndex]. *)
Definition exec (re : matcher) (text : str) (lastIndex : nat) : option ExecArray :=
  if length text <? lastIndex then None
  else searchFrom re (skipn lastIndex text) lastIndex.

(** [lastIndex] after a successful [exec]. *)
Definition nextIndex (m : ExecArray) : nat := index m + length (whole m).

(** [re.test(text)] with [lastIndex] at 0. *)
Definition test (re : matcher) (text : str) : bool :=
  match exec re text 0 with Some _ => true | None => false end.

(** [/^.../.test(text)] and [text.match(/^.../)]: the start only. *)
Definition matchAtStart (re : matcher) (text : str) : option ExecArray :=
  match re text with
  | Some (w, gs) => Some {| index := 0; whole := w; groups := gs |}
  | None => None
  end.

Definition testAtStart (re : matcher) (text : str) : bool :=
  match matchAtStart re text with Some _ => true | None => false end.

(** [while ((match = re.exec(text)) !== null) { acc = body(match, acc) }] *)
Fixpoint whileExec {A : Type} (fuel : nat) (re : matcher) (text : str)
    (lastIndex : nat) (body : ExecArray -> A -> A) (acc : A) : option A :=
  match fuel with
  | 0 => None
  | S fuel' =>
      match exec re text lastIndex with
      | None => Some acc
      | Some m => whileExec fuel' re text (nextIndex m) body (body m acc)
      end
  end.

(** The matches such a loop goes through, in order. *)
Fixpoint matchesFrom (fuel : nat) (re : matcher) (text : str) (lastIndex : nat)
  : option (list ExecArray) :=
  match fuel with
  | 0 => None
  | S fuel' =>
      match exec re text lastIndex with
      | None => Some []
      | Some m =>
          match matchesFrom fuel' re text (nextIndex m) with
          | Some ms => Some (m :: ms)
          | None => None
          end
      end
  end.

(** All the matches of a [g] regular expression in [text], with the
    fuel the loops of the source are given. *)
Definition matches (re : matcher) (text : str) : option (list ExecArray) :=
  matchesFrom (S (length text)) re text 0.

End RegExp.

(** ** Rendered output *)

(** The entries of the [styles] sheet of the source. *)
Module styles.
Inductive t :=
| container | userContainer | botContainer
| bubble | userBubble | botBubble
| messageText | userText | botText
| timestamp | userTimestamp | botTimestamp
| markdownContainer | normalText | paragraph
| h1 | h2 | h3
| bold | italic | inlineCode
| codeBlock | codeText
| blockquote | blockquoteText
| listItem | bulletPoint | listText
| link | emptyLine.
End styles.

(** A JSX element or a string child.  [style] is the list the source
    gives (a single style is a one-element list, no style the empty
    list); [onPress] is the URL handed to [handleLinkPress]. *)
#[local] Set Warnings "-register-all".
Inductive node :=
| Str (s : str)
| Text (style : list styles.t) (onPress : option str) (children : list node)
| View (style : list styles.t) (children : list node).

(** ** Loops on fuel *)

Definition bind {A B : Type} (x : option A) (f : A -> option B) : option B :=
  match x with
  | Some a => f a
  | None => None
  end.

Notation "x <- e ;; k" := (bind e (fun x => k))
  (at level 61, e at next level, right associativity).

(** [Array.prototype.sort] with a comparator [(a, b) => key(a) - key(b)]:
    the sort is stable, so the result is the one arrangement by
    ascending key that keeps equal keys in their order of insertion. *)
Section Sort.
Context {A : Type} (key : A -> nat).

Fixpoint insertBy (x : A) (l : list A) : list A :=
  match l with
  | [] => [x]
  | y :: r => if key x <=? key y then x :: l else y :: insertBy x r
  end.

Fixpoint sortBy (l : list A) : list A :=
  match l with
  | [] => []
  | x :: r => insertBy x (sortBy r)
  end.
End Sort.

(** ** [parseTextWithFormatting]: bold, italic and inline code *)

Record pattern := {
  regex : RegExp.matcher;
  style : styles.t
}.

Definition patterns : list pattern :=
  [ {| regex := RegExp.boldRe; style := styles.bold |};
    {| regex := RegExp.italicRe; style := styles.italic |};
    {| regex := RegExp.codeRe; style := styles.inlineCode |} ].

(** An entry of [allMatches]. *)
Record formatMatch := {
  fm_match : RegExp.ExecArray;
  fm_pattern : pattern;
  fm_index : nat
}.

(** The entry pushed for a match of a pattern. *)
Definition formatEntry (p : pattern) (m : RegExp.ExecArray) : formatMatch :=
  {| fm_match := m; fm_pattern := p; fm_index := RegExp.index m |}.

(** The [while] loop of one pattern, pushing onto [allMatches]. *)
Definition scanPattern (text : str) (p : pattern) (allMatches : list formatMatch)
  : option (list formatMatch) :=
  RegExp.whileExec (S (length text)) (regex p) text 0
    (fun m acc => acc ++ [formatEntry p m])
    allMatches.

(** [patterns.forEach(...)] *)
Fixpoint scanPatterns (text : str) (ps : list pattern) (allMatches : list formatMatch)
  : option (list formatMatch) :=
  match ps with
  | [] => Some allMatches
  | p :: ps' =>
      all <- scanPattern text p allMatches ;;
      scanPatterns text ps' all
  end.

(** The body of [allMatches.forEach], on the pair of [elements] and
    [currentIndex]. *)
Definition formatStep (text : str) (st : list node * nat) (e : formatMatch)
  : list node * nat :=
  let (elements, currentIndex) := st in
  let m := fm_match e in
  let elements1 :=
    if currentIndex <? RegExp.index m then
      let beforeText := JS.substring text currentIndex (RegExp.index m) in
      if JS.truthy beforeText
      then elements ++ [Text [styles.normalText] None [Str beforeText]]
      else elements
    else elements in
  (elements1 ++
     [Text [styles.normalText; style (fm_pattern e)] None [Str (RegExp.group 1 m)]],
   RegExp.index m + length (RegExp.whole m)).

(** [allMatches.sort], [allMatches.forEach] and the text left after the
    last match. *)
Definition formatElements (text : str) (allMatches : list formatMatch) : list node :=
  let (elements, currentIndex) :=
    fold_left (formatStep text) (sortBy fm_index allMatches) ([], 0) in
  if currentIndex <? length text then
    let remainingText := JS.substringFrom text currentIndex in
    if JS.truthy remainingText
    then elements ++ [Text [styles.normalText] None [Str remainingText]]
    else elements
  else elements.

Definition parseTextWithFormatting (text : str) : option node :=
  allMatches <- scanPatterns text patterns [] ;;
  let elements := formatElements text allMatches in
  if length elements =? 0
  then Some (Text [styles.normalText] None [Str text])
  else Some (Text [] None elements).

(** ** [parseInlineMarkdown]: links, then formatting between them *)

Inductive linkType := markdown | plain.

(** An entry of [allLinks]. *)
Record linkEntry := {
  link_start : nat;
  link_end : nat;
  link_text : str;
  link_url : str;
  link_type : linkType
}.

Definition isMarkdown (l : linkEntry) : bool :=
  match link_type l with markdown => true | plain => false end.

(** The entry pushed for a match of the markdown-link pattern. *)
Definition markdownEntry (m : RegExp.ExecArray) : linkEntry :=
  {| link_start := RegExp.index m;
     link_end := RegExp.index m + length (RegExp.group 0 m);
     link_text := RegExp.group 1 m;
     link_url := RegExp.group 2 m;
     link_type := markdown |}.

(** The entry pushed for a match of the bare-URL pattern. *)
Definition plainEntry (m : RegExp.ExecArray) : linkEntry :=
  let url := RegExp.group 0 m in
  {| link_start := RegExp.index m;
     link_end := RegExp.index m + length (RegExp.group 0 m);
     link_text := url;
     link_url := url;
     link_type := plain |}.

(** First loop: every match of the markdown-link pattern. *)
Definition markdownLinks (text : str) : option (list linkEntry) :=
  RegExp.whileExec (S (length text)) RegExp.markdownLinkRe text 0
    (fun m acc => acc ++ [markdownEntry m])
    [].

(** [allLinks.some(link => link.type === 'markdown' &&
    match.index >= link.start && match.index < link.end)] *)
Definition isPartOfMarkdownLink (allLinks : list linkEntry) (m : RegExp.ExecArray) : bool :=
  existsb (fun l => isMarkdown l &&
                    (link_start l <=? RegExp.index m) &&
                    (RegExp.index m <? link_end l))
          allLinks.

(** Second loop: the bare URLs that do not start inside a markdown
    link. *)
Definition plainUrls (text : str) (allLinks : list linkEntry) : option (list linkEntry) :=
  RegExp.whileExec (S (length text)) RegExp.urlRe text 0
    (fun m acc =>
       if isPartOfMarkdownLink acc m then acc else acc ++ [plainEntry m])
    allLinks.

(** [allLinks] once both loops have run and the array is sorted. *)
Definition findLinks (text : str) : option (list linkEntry) :=
  md <- markdownLinks text ;;
  all <- plainUrls text md ;;
  Some (sortBy link_start all).

(** A non-empty piece of text between links. *)
Definition gap (inner : node) : node := Text [] None [inner].

(** The body of [allLinks.forEach], on [elements] and [lastIndex]. *)
Definition linkStep (text : str) (st : option (list node * nat)) (l : linkEntry)
  : option (list node * nat) :=
  s <- st ;;
  let (elements, lastIndex) := s in
  elements1 <-
    (if lastIndex <? link_start l then
       let beforeText := JS.substring text lastIndex (link_start l) in
       if JS.truthy beforeText then
         f <- parseTextWithFormatting beforeText ;;
         Some (elements ++ [gap f])
       else Some elements
     else Some elements) ;;
  Some (elements1 ++ [Text [styles.link] (Some (link_url l)) [Str (link_text l)]],
        link_end l).

Definition parseInlineMarkdown (text : str) : option node :=
  let hasMarkdownLinks := RegExp.test RegExp.markdownLinkRe text in
  let hasPlainUrls := RegExp.test RegExp.urlRe text in
  if negb hasMarkdownLinks && negb hasPlainUrls then
    parseTextWithFormatting text
  else
    allLinks <- findLinks text ;;
    s <- fold_left (linkStep text) allLinks (Some ([], 0)) ;;
    let (elements, lastIndex) := s in
    elements' <-
      (if lastIndex <? length text then
         let remainingText := JS.substringFrom text lastIndex in
         if JS.truthy remainingText then
           f <- parseTextWithFormatting remainingText ;;
           Some (elements ++ [gap f])
         else Some elements
       else Some elements) ;;
    Some (Text [] None elements').

(** ** [parseMarkdown]: the blocks of a message *)

Definition fence : str := lit "```".

(** The inner [while] of a code block: from line [i] on, lines are
    pushed onto [codeLines] until one starts with the fence or the
    lines are used up.  Returns the cursor and [codeLines]. *)
Fixpoint collectCode (fuel : nat) (lines : list str) (i : nat) (codeLines : list str)
  : option (nat * list str) :=
  match fuel with
  | 0 => None
  | S fuel' =>
      if (i <? length lines) && negb (JS.startsWith fence (nth i lines []))
      then collectCode fuel' lines (S i) (codeLines ++ [nth i lines []])
      else Some (i, codeLines)
  end.

Definition heading (s : styles.t) (t : str) : node := Text [s] None [Str t].

Definition codeBlockElement (codeLines : list str) : node :=
  View [styles.codeBlock] [Text [styles.codeText] None [Str (JS.join codeLines)]].

Definition blockquoteElement (t : str) : node :=
  View [styles.blockquote] [Text [styles.blockquoteText] None [Str t]].

Definition listItemElement (marker : list node) (body : node) : node :=
  View [styles.listItem]
       [Text [styles.bulletPoint] None marker; Text [styles.listText] None [body]].

Definition bullet : str := [8226%N].

Definition paragraphElement (body : node) : node :=
  Text [styles.paragraph] None [body].

Definition emptyLineElement : node := View [styles.emptyLine] [].

(** The body of the [for] loop at line [i]: the cursor as the body
    leaves it (the loop adds one to it) and the elements pushed so
    far. *)
Definition lineStep (lines : list str) (i : nat) (elements : list node)
  : option (nat * list node) :=
  let line := nth i lines [] in
  if JS.startsWith (lit "# ") line then
    Some (i, elements ++ [heading styles.h1 (JS.substringFrom line 2)])
  else if JS.startsWith (lit "## ") line then
    Some (i, elements ++ [heading styles.h2 (JS.substringFrom line 3)])
  else if JS.startsWith (lit "### ") line then
    Some (i, elements ++ [heading styles.h3 (JS.substringFrom line 4)])
  else if JS.startsWith fence line then
    r <- collectCode (S (length lines)) lines (S i) [] ;;
    let (i', codeLines) := r in
    Some (i', elements ++ [codeBlockElement codeLines])
  else if JS.startsWith (lit "> ") line then
    Some (i, elements ++ [blockquoteElement (JS.substringFrom line 2)])
  else if JS.startsWith (lit "- ") line || JS.startsWith (lit "* ") line then
    body <- parseInlineMarkdown (JS.substringFrom line 2) ;;
    Some (i, elements ++ [listItemElement [Str bullet] body])
  else if RegExp.testAtStart RegExp.orderedTestRe line then
    match RegExp.matchAtStart RegExp.orderedCaptureRe line with
    | Some m =>
        body <- parseInlineMarkdown (RegExp.group 2 m) ;;
        Some (i, elements ++
                 [listItemElement [Str (RegExp.group 1 m); Str (lit ".")] body])
    | None => Some (i, elements)
    end
  else if JS.truthy (JS.trim line) then
    body <- parseInlineMarkdown line ;;
    Some (i, elements ++ [paragraphElement body])
  else
    Some (i, elements ++ [emptyLineElement]).

(** [for (let i = 0; i < lines.length; i++) { ... }] from cursor [i]. *)
Fixpoint forLines (fuel : nat) (lines : list str) (i : nat) (elements : list node)
  : option (list node) :=
  match fuel with
  | 0 => None
  | S fuel' =>
      if i <? length lines then
        r <- lineStep lines i elements ;;
        let (i', elements') := r in
        forLines fuel' lines (S i') elements'
      else Some elements
  end.

Definition parseMarkdown (text : str) : option (list node) :=
  let lines := JS.split text in
  forLines (S (length lines)) lines 0 [].

(** ** The detector and the component *)

Definition hasMarkdown (message : str) : bool :=
  RegExp.test RegExp.markupCharRe message ||
  JS.includes (lit "```") message ||
  JS.includes (lit "> ") message ||
  RegExp.testAtStart RegExp.orderedTestRe message ||
  RegExp.test RegExp.schemeRe message.

(** The plain rendering of a message. *)
Definition plainMessage (message : str) (isUser : bool) : node :=
  Text [styles.messageText; if isUser then styles.userText else styles.botText]
       None [Str message].

(** The child of the bubble: the parsed blocks for a bot message with
    markup, the message as it is otherwise. *)
Definition bubbleContent (message : str) (isUser : bool) : option node :=
  if negb isUser && hasMarkdown message then
    elements <- parseMarkdown message ;;
    Some (View [styles.markdownContainer] elements)
  else Some (plainMessage message isUser).

Definition MessageBubble (message : str) (isUser : bool) (timestamp : str)
  : option node :=
  content <- bubbleContent message isUser ;;
  Some (View [styles.container;
              if isUser then styles.userContainer else styles.botContainer]
          [ View [styles.bubble;
                  if isUser then styles.userBubble else styles.botBubble]
                 [content];
            Text [styles.timestamp;
                  if isUser then styles.userTimestamp else styles.botTimestamp]
                 None [Str timestamp] ]).

(** ** The pipeline in the terms of the specification

    The specification describes [parseMarkdown] as a block segmenter
    followed by inline resolution.  The definitions below give that
    reading: the block segments with their raw text, the segmentation
    as a pass over the lines that is either outside or inside a code
    block, and the rendering of one segment.  [parseMarkdown] is proved
    equal to their composition further down. *)

Inductive level := L1 | L2 | L3.

Inductive block :=
| Heading (l : level) (text : str)
| CodeBlock (lines : list str)
| Blockquote (text : str)
| ListItem (ordinal : option str) (text : str)
| Paragraph (text : str)
| Spacer.

(** The segment of a line that does not open a code block; [None] for
    a line that the numbered-list test accepts and the capture pattern
    rejects, for which the source pushes nothing. *)
Definition classify (line : str) : option block :=
  if JS.startsWith (lit "# ") line then Some (Heading L1 (JS.substringFrom line 2))
  else if JS.startsWith (lit "## ") line then Some (Heading L2 (JS.substringFrom line 3))
  else if JS.startsWith (lit "### ") line then Some (Heading L3 (JS.substringFrom line 4))
  else if JS.startsWith (lit "> ") line then Some (Blockquote (JS.substringFrom line 2))
  else if JS.startsWith (lit "- ") line || JS.startsWith (lit "* ") line then
    Some (ListItem None (JS.substringFrom line 2))
  else if RegExp.testAtStart RegExp.orderedTestRe line then
    match RegExp.matchAtStart RegExp.orderedCaptureRe line with
    | Some m => Some (ListItem (Some (RegExp.group 1 m)) (RegExp.group 2 m))
    | None => None
    end
  else if JS.truthy (JS.trim line) then Some (Paragraph line)
  else Some Spacer.

Definition opensCode (line : str) : bool :=
  negb (JS.startsWith (lit "# ") line) &&
  negb (JS.startsWith (lit "## ") line) &&
  negb (JS.startsWith (lit "### ") line) &&
  JS.startsWith fence line.

(** Segmentation of the lines left; [code] holds the lines collected so
    far when the pass is inside a code block. *)
Fixpoint segment (code : option (list str)) (lines : list str) : list block :=
  match lines with
  | [] =>
      match code with
      | Some codeLines => [CodeBlock codeLines]
      | None => []
      end
  | line :: rest =>
      match code with
      | Some codeLines =>
          if JS.startsWith fence line then CodeBlock codeLines :: segment None rest
          else segment (Some (codeLines ++ [line])) rest
      | None =>
          if opensCode line then segment (Some []) rest
          else match classify line with
               | Some b => b :: segment None rest
               | None => segment None rest
               end
      end
  end.

Definition segmentBlocks (message : str) : list block :=
  segment None (JS.split message).

Definition headingStyle (l : level) : styles.t :=
  match l with L1 => styles.h1 | L2 => styles.h2 | L3 => styles.h3 end.

(** Rendering of one segment: list items and paragraphs go through
    [parseInlineMarkdown], the others show their text as it is. *)
Definition renderBlock (b : block) : option node :=
  match b with
  | Heading l t => Some (heading (headingStyle l) t)
  | CodeBlock codeLines => Some (codeBlockElement codeLines)
  | Blockquote t => Some (blockquoteElement t)
  | ListItem None t =>
      body <- parseInlineMarkdown t ;;
      Some (listItemElement [Str bullet] body)
  | ListItem (Some n) t =>
      body <- parseInlineMarkdown t ;;
      Some (listItemElement [Str n; Str (lit ".")] body)
  | Paragraph t =>
      body <- parseInlineMarkdown t ;;
      Some (paragraphElement body)
  | Spacer => Some emptyLineElement
  end.

Fixpoint renderBlocks (bs : list block) : option (list node) :=
  match bs with
  | [] => Some []
  | b :: bs' =>
      e <- renderBlock b ;;
      es <- renderBlocks bs' ;;
      Some (e :: es)
  end.

(** The detector as the specification words it: a markup character, a
    fence, a blockquote marker at the start of a line, a numbered-list
    marker at the start of the message, or a URL scheme. *)
Definition needsStructuredParsing (message : str) : bool :=
  existsb (fun c => existsb (N.eqb c) (lit "*_`#[]!-")) message ||
  JS.includes fence message ||
  existsb (JS.startsWith (lit "> ")) (JS.split message) ||
  RegExp.testAtStart RegExp.orderedTestRe message ||
  JS.includes (lit "http://") message ||
  JS.includes (lit "https://") message.

(** A match that starts inside one of the matches [mds]. *)
Definition startsInside (mds : list RegExp.ExecArray) (m : RegExp.ExecArray) : bool :=
  existsb (fun k => (RegExp.index k <=? RegExp.index m) &&
                    (RegExp.index m <? RegExp.index k + length (RegExp.whole k)))
          mds.

(** The characters a rendered tree shows, in order. *)
Fixpoint textOf (n : node) : str :=
  match n with
  | Str s => s
  | Text _ _ children => flat_map textOf children
  | View _ children => flat_map textOf children
  end.

(** ** Vocabulary of the statements *)

(** A pattern whose matches are non-empty and are the text found at the
    position of the match. *)
Definition consumes (re : RegExp.matcher) : Prop :=
  forall s w gs, re s = Some (w, gs) -> w <> [] /\ exists r, s = w ++ r.

(** What every element of a list of matches satisfies: it starts at or
    after [li], inside the text, where the pattern matches. *)
Definition matchAt (re : RegExp.matcher) (text : str) (li : nat) (m : RegExp.ExecArray) : Prop :=
  li <= RegExp.index m <= length text /\
  re (skipn (RegExp.index m) text) = Some (RegExp.whole m, RegExp.groups m).

Definition notLineTerminator (c : char) : bool := negb (JS.isLineTerminator c).

(** The candidates before sorting: every markdown link, then the bare
    URLs that do not start inside one. *)
Definition candidates (mds urls : list RegExp.ExecArray) : list linkEntry :=
  map markdownEntry mds ++
  map plainEntry (filter (fun u => negb (startsInside mds u)) urls).

(** An entry of [allMatches] comes from one of the three patterns and
    records a match of that pattern in the text. *)
Definition entryOf (text : str) (e : formatMatch) : Prop :=
  In (fm_pattern e) patterns /\
  fm_index e = RegExp.index (fm_match e) /\
  matchAt (regex (fm_pattern e)) text 0 (fm_match e).

(** The delimiter of each emphasis style. *)
Definition delimiters : list (str * styles.t) :=
  [ (lit "**", styles.bold); (lit "*", styles.italic); (lit "`", styles.inlineCode) ].

(** The text between the cursor and the start of the next match or
    link, as the [forEach] loops of the source take it: nothing when the
    cursor is not before the start. *)
Definition gapText (text : str) (cur next : nat) : str :=
  if cur <? next then JS.substring text cur next else [].

(** The text put together from the gaps before the matches, what
    [shown] gives for each match, and the text left after the last
    one; the cursor moves to the end of each match in turn. *)
Fixpoint stitch (shown : RegExp.ExecArray -> str) (text : str) (cur : nat)
    (ms : list RegExp.ExecArray) : str :=
  match ms with
  | [] => skipn cur text
  | m :: ms' =>
      gapText text cur (RegExp.index m) ++ shown m ++
      stitch shown text (RegExp.nextIndex m) ms'
  end.

(** The same for the entries of [allLinks]. *)
Fixpoint stitchLinks (shown : linkEntry -> str) (text : str) (cur : nat)
    (ls : list linkEntry) : str :=
  match ls with
  | [] => skipn cur text
  | l :: ls' =>
      gapText text cur (link_start l) ++ shown l ++
      stitchLinks shown text (link_end l) ls'
  end.

(** The URLs handed to [handleLinkPress] by the pressable elements of
    a rendered tree, in order. *)
Fixpoint pressTargets (n : node) : list str :=
  match n with
  | Str _ => []
  | Text _ onPress children =>
      match onPress with Some url => [url] | None => [] end ++
      flat_map pressTargets children
  | View _ children => flat_map pressTargets children
  end.

(** The match [a] ends before the match [b] starts. *)
Definition apart (a b : RegExp.ExecArray) : Prop :=
  RegExp.nextIndex a <= RegExp.index b.

(** What holds of an entry of [allLinks] in [text]. *)
Definition linkIn (text : str) (l : linkEntry) : Prop :=
  link_start l < link_end l <= length text /\
  match link_type l with
  | markdown =>
      JS.substring text (link_start l) (link_end l) =
        lit "[" ++ link_text l ++ lit "](" ++ link_url l ++ lit ")" /\
      ~ In 93%N (link_text l) /\ ~ In 41%N (link_url l)
  | plain =>
      JS.substring text (link_start l) (link_end l) = link_url l /\
      link_text l = link_url l /\
      (JS.startsWith (lit "http://") (link_url l) = true \/
       JS.startsWith (lit "https://") (link_url l) = true) /\
      forallb (fun c => negb (JS.isSpace c)) (link_url l) = true
  end.

(** [a] ends before [b] starts. *)
Definition follows (a b : linkEntry) : Prop := link_end a <= link_start b.

(** The ranges of [a] and [b] do not overlap. *)
Definition disjoint (a b : linkEntry) : Prop := follows a b \/ follows b a.

Definition nonEmptyRange (l : linkEntry) : Prop := link_start l < link_end l.

(** A block that a message without markup characters can give. *)
Definition plainBlock (b : block) : Prop :=
  match b with
  | Paragraph _ | Spacer | ListItem (Some _) _ => True
  | _ => False
  end.

(** * Properties *)

(** ** Strings *)

Lemma startsWith_prefix (p s : str) :
  JS.startsWith p s = true <-> exists r, s = p ++ r.
Proof.
  revert s; induction p as [|a p IH]; intros s; simpl.
  - split; [intros _; now exists s | reflexivity].
  - destruct s as [|b s].
    + split; [discriminate | intros [r H]; discriminate].
    + rewrite andb_true_iff, N.eqb_eq, IH. split.
      * intros [-> [r ->]]. now exists r.
      * intros [r H]. injection H as -> ->. split; [reflexivity | now exists r].
Qed.

Lemma startsWith_skipn (p s : str) :
  JS.startsWith p s = true -> s = p ++ skipn (length p) s.
Proof.
  intros H. apply startsWith_prefix in H as [r ->].
  now rewrite skipn_app, Nat.sub_diag, skipn_all.
Qed.

Lemma includes_infix (p s : str) :
  JS.includes p s = true <-> exists a b, s = a ++ p ++ b.
Proof.
  induction s as [|c s IH].
  - simpl. rewrite orb_false_r, startsWith_prefix. split.
    + intros [r H]. now exists [], r.
    + intros [a [b H]]. destruct a; [now exists b | discriminate].
  - cbn [JS.includes]. rewrite orb_true_iff, startsWith_prefix, IH. split.
    + intros [[r H] | [a [b H]]].
      * now exists [], r.
      * exists (c :: a), b. now rewrite H.
    + intros [[|x a] [b H]].
      * left. now exists b.
      * right. injection H as _ ->. now exists a, b.
Qed.

(** ** Searching with a pattern *)

Lemma span_app (f : char -> bool) (s : str) :
  fst (RegExp.span f s) ++ snd (RegExp.span f s) = s.
Proof.
  induction s as [|c s IH]; simpl; [reflexivity|].
  destruct (f c); [|reflexivity].
  destruct (RegExp.span f s); simpl in *. now rewrite IH.
Qed.

Lemma span_all (f : char -> bool) (s : str) :
  forallb f (fst (RegExp.span f s)) = true.
Proof.
  induction s as [|c s IH]; simpl; [reflexivity|].
  destruct (f c) eqn:E; [|reflexivity].
  destruct (RegExp.span f s); simpl in *. now rewrite E.
Qed.

Lemma span_stop (f : char -> bool) (s : str) c r :
  snd (RegExp.span f s) = c :: r -> f c = false.
Proof.
  induction s as [|x s IH]; simpl; [discriminate|].
  destruct (f x) eqn:E.
  - destruct (RegExp.span f s); simpl in *. exact IH.
  - simpl. now intros [= <- _].
Qed.

Lemma searchFrom_found re s p m :
  RegExp.searchFrom re s p = Some m ->
  exists k, RegExp.index m = p + k /\ k <= length s /\
            re (skipn k s) = Some (RegExp.whole m, RegExp.groups m) /\
            forall j, j < k -> re (skipn j s) = None.
Proof.
  revert p; induction s as [|c s IH]; intros p; simpl.
  - destruct (re []) as [[w gs]|] eqn:E; [|discriminate].
    intros [= <-]. exists 0; simpl. repeat split; auto; lia.
  - destruct (re (c :: s)) as [[w gs]|] eqn:E.
    + intros [= <-]. exists 0; simpl. repeat split; auto; lia.
    + intros H. apply IH in H as (k & Hi & Hk & Hm & Hn).
      exists (S k); simpl. repeat split; auto; try lia.
      intros [|j] Hj; simpl; [assumption | apply Hn; lia].
Qed.

Lemma searchFrom_none re s p :
  RegExp.searchFrom re s p = None -> forall j, re (skipn j s) = None.
Proof.
  revert p; induction s as [|c s IH]; intros p; simpl.
  - destruct (re []) as [[w gs]|] eqn:E; [discriminate|].
    intros _ j. now rewrite skipn_nil.
  - destruct (re (c :: s)) as [[w gs]|] eqn:E; [discriminate|].
    intros H [|j]; simpl; [assumption | now apply (IH (S p))].
Qed.

Lemma exec_found re text li m :
  RegExp.exec re text li = Some m ->
  li <= RegExp.index m <= length text /\
  re (skipn (RegExp.index m) text) = Some (RegExp.whole m, RegExp.groups m) /\
  forall j, li <= j < RegExp.index m -> re (skipn j text) = None.
Proof.
  unfold RegExp.exec. destruct (Nat.ltb_spec (length text) li); [discriminate|].
  intros Hs. apply searchFrom_found in Hs as (k & Hi & Hk & Hm & Hn).
  rewrite length_skipn in Hk. rewrite skipn_skipn in Hm.
  replace (k + li) with (RegExp.index m) in Hm by lia.
  repeat split; auto; try lia.
  intros j Hj. specialize (Hn (j - li)). rewrite skipn_skipn in Hn.
  replace (j - li + li) with j in Hn by lia. apply Hn. lia.
Qed.

Lemma exec_advances re text li m :
  consumes re -> RegExp.exec re text li = Some m ->
  li < RegExp.nextIndex m <= length text.
Proof.
  intros Hp H. apply exec_found in H as (Hi & Hm & _).
  apply Hp in Hm as [Hne [r Hr]]. unfold RegExp.nextIndex.
  assert (Hl : length (skipn (RegExp.index m) text) = length (RegExp.whole m) + length r)
    by (rewrite Hr at 1; apply length_app).
  rewrite length_skipn in Hl.
  destruct (RegExp.whole m); [congruence | simpl in *; lia].
Qed.

Lemma matchesFrom_total re text :
  consumes re ->
  forall fuel li, length text - li < fuel ->
  exists ms, RegExp.matchesFrom fuel re text li = Some ms.
Proof.
  intros Hp. induction fuel as [|fuel IH]; intros li Hf; [lia|]. simpl.
  destruct (RegExp.exec re text li) as [m|] eqn:E; [|now exists []].
  pose proof (exec_advances _ _ _ _ Hp E) as Ha.
  destruct (IH (RegExp.nextIndex m)) as [ms ->]; [lia|]. now exists (m :: ms).
Qed.

Lemma matches_total re text :
  consumes re -> exists ms, RegExp.matches re text = Some ms.
Proof. intros Hp. apply matchesFrom_total; [assumption | lia]. Qed.

Lemma matchesFrom_sound re text fuel : forall li ms,
  RegExp.matchesFrom fuel re text li = Some ms ->
  Forall (matchAt re text li) ms.
Proof.
  induction fuel as [|fuel IH]; intros li ms; simpl; [discriminate|].
  destruct (RegExp.exec re text li) as [m|] eqn:E; [|intros [= <-]; constructor].
  destruct (RegExp.matchesFrom fuel re text (RegExp.nextIndex m)) as [ms'|] eqn:E';
    [|discriminate].
  intros [= <-]. apply exec_found in E as (Hi & Hm & _).
  constructor; [now split|].
  apply IH in E'. eapply Forall_impl; [|exact E'].
  intros a [Ha Hb]. split; [|assumption].
  unfold RegExp.nextIndex in Ha. lia.
Qed.

(** The loop is a fold of its body over the matches. *)
Lemma whileExec_fold {A} (body : RegExp.ExecArray -> A -> A) re text fuel :
  forall li acc,
  RegExp.whileExec fuel re text li body acc =
  match RegExp.matchesFrom fuel re text li with
  | Some ms => Some (fold_left (fun a m => body m a) ms acc)
  | None => None
  end.
Proof.
  induction fuel as [|fuel IH]; intros li acc; simpl; [reflexivity|].
  destruct (RegExp.exec re text li) as [m|]; [|reflexivity].
  rewrite IH. now destruct (RegExp.matchesFrom fuel re text (RegExp.nextIndex m)).
Qed.

(** ** The patterns *)

Lemma lazyUntil_found close s inner :
  RegExp.lazyUntil close s = Some inner ->
  (exists r, s = inner ++ close ++ r) /\
  forallb notLineTerminator inner = true /\
  forall k, k < length inner -> JS.startsWith close (skipn k s) = false.
Proof.
  revert inner; induction s as [|c s IH]; intros inner; simpl.
  - destruct (JS.startsWith close []) eqn:E; [|discriminate].
    intros [= <-]. apply startsWith_prefix in E as [r E].
    repeat split; [now exists r | simpl; lia].
  - destruct (JS.startsWith close (c :: s)) eqn:E.
    + intros [= <-]. apply startsWith_prefix in E as [r E].
      repeat split; [now exists r | simpl; lia].
    + destruct (JS.isLineTerminator c) eqn:Ec; [discriminate|].
      destruct (RegExp.lazyUntil close s) as [i|]; [|discriminate].
      intros [= <-]. destruct (IH i eq_refl) as ([r Hr] & Hall & Hk).
      repeat split.
      * exists r. now rewrite Hr.
      * simpl. unfold notLineTerminator at 1. now rewrite Ec.
      * intros [|k] Hlt; simpl; [assumption | apply Hk; simpl in Hlt; lia].
Qed.

Lemma lazyUntil_complete close inner r :
  forallb notLineTerminator inner = true ->
  (forall k, k < length inner -> JS.startsWith close (skipn k (inner ++ close ++ r)) = false) ->
  RegExp.lazyUntil close (inner ++ close ++ r) = Some inner.
Proof.
  induction inner as [|c inner IH]; intros Hall Hk.
  - simpl app. assert (E : JS.startsWith close (close ++ r) = true)
      by (apply startsWith_prefix; now exists r).
    destruct (close ++ r); simpl; now rewrite E.
  - simpl in Hall. apply andb_true_iff in Hall as [Hc Hall].
    assert (H0 : JS.startsWith close (c :: inner ++ close ++ r) = false)
      by (apply (Hk 0); simpl; lia).
    cbn [app RegExp.lazyUntil]. rewrite H0.
    unfold notLineTerminator in Hc. apply negb_true_iff in Hc. rewrite Hc.
    rewrite IH; [reflexivity | assumption |].
    intros k Hlt. apply (Hk (S k)). simpl. lia.
Qed.

Lemma delimited_found open close s w gs :
  RegExp.delimited open close s = Some (w, gs) ->
  exists inner r,
    gs = [inner] /\ w = open ++ inner ++ close /\ s = w ++ r /\
    forallb notLineTerminator inner = true /\
    forall k, k < length inner ->
      JS.startsWith close (skipn k (inner ++ close ++ r)) = false.
Proof.
  unfold RegExp.delimited. destruct (JS.startsWith open s) eqn:E; [|discriminate].
  destruct (RegExp.lazyUntil close (skipn (length open) s)) as [inner|] eqn:El;
    [|discriminate].
  intros [= <- <-]. apply lazyUntil_found in El as ([r Hr] & Hall & Hk).
  exists inner, r. apply startsWith_skipn in E. rewrite Hr in E, Hk.
  repeat split; auto. now rewrite <- !app_assoc.
Qed.

Lemma delimited_consumes open close :
  open <> [] -> consumes (RegExp.delimited open close).
Proof.
  intros Ho s w gs H. apply delimited_found in H as (inner & r & _ & -> & -> & _).
  split; [destruct open; [congruence | discriminate] | now exists r].
Qed.

Lemma markdownLinkRe_found s w gs :
  RegExp.markdownLinkRe s = Some (w, gs) ->
  exists display target r,
    gs = [display; target] /\
    w = lit "[" ++ display ++ lit "](" ++ target ++ lit ")" /\
    s = w ++ r /\ display <> [] /\ target <> [] /\
    forallb (RegExp.notChar 93) display = true /\
    forallb (RegExp.notChar 41) target = true.
Proof.
  unfold RegExp.markdownLinkRe.
  destruct s as [|c s]; [discriminate|].
  destruct (N.eqb_spec c 91) as [->|Hc].
  2:{ destruct c as [|p]; [discriminate|].
      do 7 (destruct p; try discriminate). congruence. }
  pose proof (span_app (RegExp.notChar 93) s) as Ha.
  pose proof (span_all (RegExp.notChar 93) s) as Hd.
  destruct (RegExp.span (RegExp.notChar 93) s) as [display r1]; simpl in Ha, Hd.
  destruct display as [|d display]; [discriminate|]. cbn [isEmpty].
  destruct r1 as [|c1 r1]; [discriminate|].
  destruct (N.eqb_spec c1 93) as [->|Hc1].
  2:{ destruct c1 as [|p]; [discriminate|].
      do 7 (destruct p; try discriminate). congruence. }
  destruct r1 as [|c2 r2]; [discriminate|].
  destruct (N.eqb_spec c2 40) as [->|Hc2].
  2:{ destruct c2 as [|p]; [discriminate|].
      do 6 (destruct p; try discriminate). congruence. }
  pose proof (span_app (RegExp.notChar 41) r2) as Hb.
  pose proof (span_all (RegExp.notChar 41) r2) as Ht.
  destruct (RegExp.span (RegExp.notChar 41) r2) as [target r3]; simpl in Hb, Ht.
  destruct target as [|t target]; [discriminate|]. cbn [isEmpty].
  destruct r3 as [|c3 r3]; [discriminate|].
  destruct (N.eqb_spec c3 41) as [->|Hc3].
  2:{ destruct c3 as [|p]; [discriminate|].
      do 6 (destruct p; try discriminate). congruence. }
  intros [= <- <-]. exists (d :: display), (t :: target), r3.
  repeat split; auto; try discriminate.
  rewrite <- Ha, <- Hb. repeat (simpl; rewrite <- app_assoc). reflexivity.
Qed.

Lemma markdownLinkRe_consumes : consumes RegExp.markdownLinkRe.
Proof.
  intros s w gs H.
  apply markdownLinkRe_found in H as (d & t & r & _ & -> & -> & _).
  split; [discriminate | now exists r].
Qed.

Lemma scheme_found s pre r :
  RegExp.scheme s = Some (pre, r) ->
  s = pre ++ r /\ (pre = lit "http://" \/ pre = lit "https://").
Proof.
  unfold RegExp.scheme. destruct (JS.startsWith (lit "http") s) eqn:E; [|discriminate].
  apply startsWith_prefix in E as [t ->].
  change (skipn 4 (lit "http" ++ t)) with t.
  assert (Hplain : (if JS.startsWith (lit "://") t
                    then Some (lit "http" ++ lit "://", skipn 3 t) else None)
                   = Some (pre, r) ->
                   lit "http" ++ t = pre ++ r /\
                   (pre = lit "http://" \/ pre = lit "https://")).
  { destruct (JS.startsWith (lit "://") t) eqn:E; [|discriminate].
    apply startsWith_skipn in E. intros [= <- <-].
    split; [|now left]. rewrite E at 1. reflexivity. }
  destruct t as [|c t]; [exact Hplain|].
  destruct (N.eqb_spec c 115) as [->|Hc].
  - destruct (JS.startsWith (lit "://") t) eqn:E; [|discriminate].
    apply startsWith_skipn in E. intros [= <- <-].
    split; [|now right]. rewrite E at 1. reflexivity.
  - destruct c as [|p]; [exact Hplain|].
    do 7 (destruct p; try exact Hplain). congruence.
Qed.

Lemma scheme_http r : RegExp.scheme (lit "http://" ++ r) = Some (lit "http://", r).
Proof. reflexivity. Qed.

Lemma scheme_https r : RegExp.scheme (lit "https://" ++ r) = Some (lit "https://", r).
Proof. reflexivity. Qed.

Lemma urlRe_found s w gs :
  RegExp.urlRe s = Some (w, gs) ->
  exists pre body r,
    gs = [] /\ w = pre ++ body /\ s = w ++ r /\ body <> [] /\
    (pre = lit "http://" \/ pre = lit "https://") /\
    forallb RegExp.urlChar body = true.
Proof.
  unfold RegExp.urlRe. destruct (RegExp.scheme s) as [[pre t]|] eqn:E; [|discriminate].
  apply scheme_found in E as [-> Hpre].
  pose proof (span_app RegExp.urlChar t) as Ha.
  pose proof (span_all RegExp.urlChar t) as Hb.
  destruct (RegExp.span RegExp.urlChar t) as [body r]; simpl in Ha, Hb.
  destruct body as [|b body]; [discriminate|]. intros [= <- <-].
  exists pre, (b :: body), r. repeat split; auto; try discriminate.
  now rewrite <- Ha, app_assoc.
Qed.

Lemma urlRe_consumes : consumes RegExp.urlRe.
Proof.
  intros s w gs H.
  apply urlRe_found in H as (pre & body & r & _ & -> & -> & Hb & Hpre & _).
  split; [|now exists r].
  destruct Hpre as [-> | ->]; discriminate.
Qed.

Lemma patterns_consume p : In p patterns -> consumes (regex p).
Proof.
  intros [<- | [<- | [<- | []]]]; apply delimited_consumes; discriminate.
Qed.

(** [test] finds a match when there is one anywhere in the text. *)
Lemma test_true re text :
  RegExp.test re text = true <-> exists a b, text = a ++ b /\ re b <> None.
Proof.
  unfold RegExp.test. split.
  - destruct (RegExp.exec re text 0) as [m|] eqn:E; [|discriminate]. intros _.
    apply exec_found in E as (_ & Hm & _).
    exists (firstn (RegExp.index m) text), (skipn (RegExp.index m) text).
    split; [now rewrite firstn_skipn | congruence].
  - intros (a & b & -> & Hb).
    destruct (RegExp.exec re (a ++ b) 0) as [m|] eqn:E; [reflexivity|].
    exfalso. apply Hb. unfold RegExp.exec in E. simpl in E.
    pose proof (searchFrom_none _ _ _ E (length a)) as Hn.
    now rewrite skipn_app, Nat.sub_diag, skipn_all in Hn.
Qed.

Lemma orderedPrefix_found s digits c r :
  RegExp.orderedPrefix s = Some (digits, c, r) ->
  s = digits ++ 46%N :: c :: r /\ digits <> [] /\
  forallb JS.isDigit digits = true /\ JS.isSpace c = true.
Proof.
  unfold RegExp.orderedPrefix.
  pose proof (span_app JS.isDigit s) as Ha.
  pose proof (span_all JS.isDigit s) as Hd.
  destruct (RegExp.span JS.isDigit s) as [ds t]; simpl in Ha, Hd.
  destruct ds as [|d ds]; [discriminate|]. cbn [isEmpty].
  destruct t as [|x t]; [discriminate|].
  destruct (N.eqb_spec x 46) as [->|Hx].
  - destruct t as [|y t]; [discriminate|].
    destruct (JS.isSpace y) eqn:Ey; [|discriminate].
    intros [= <- <- <-]. repeat split; auto; discriminate.
  - destruct x as [|p]; [discriminate|].
    do 6 (destruct p; try discriminate). congruence.
Qed.

Lemma span_maximal (f : char -> bool) (a : str) c r :
  forallb f a = true -> f c = false -> RegExp.span f (a ++ c :: r) = (a, c :: r).
Proof.
  intros Ha Hc. induction a as [|x a IH]; simpl.
  - now rewrite Hc.
  - simpl in Ha. apply andb_true_iff in Ha as [-> Ha]. now rewrite IH.
Qed.

Lemma orderedPrefix_complete digits c r :
  digits <> [] -> forallb JS.isDigit digits = true -> JS.isSpace c = true ->
  RegExp.orderedPrefix (digits ++ 46%N :: c :: r) = Some (digits, c, r).
Proof.
  intros Hne Hd Hc. unfold RegExp.orderedPrefix.
  rewrite span_maximal by (assumption || reflexivity).
  destruct digits; [congruence|]. simpl. now rewrite Hc.
Qed.

(** ** Termination of the inline parsers *)

Lemma whileExec_total {A} (body : RegExp.ExecArray -> A -> A) re text acc :
  consumes re ->
  exists ms, RegExp.matches re text = Some ms /\
             RegExp.whileExec (S (length text)) re text 0 body acc =
             Some (fold_left (fun a m => body m a) ms acc).
Proof.
  intros Hc. destruct (matches_total re text Hc) as [ms Hms].
  exists ms. split; [assumption|].
  rewrite whileExec_fold. unfold RegExp.matches in Hms. now rewrite Hms.
Qed.

Lemma scanPattern_total text p all :
  consumes (regex p) -> exists all', scanPattern text p all = Some all'.
Proof.
  intros Hc. unfold scanPattern.
  edestruct (whileExec_total (A := list formatMatch)) as (ms & _ & ->);
    [exact Hc | eauto].
Qed.

Lemma scanPatterns_total text ps :
  (forall p, In p ps -> consumes (regex p)) ->
  forall all, exists all', scanPatterns text ps all = Some all'.
Proof.
  induction ps as [|p ps IH]; intros Hc all; cbn [scanPatterns]; [now exists all|].
  destruct (scanPattern_total text p all) as [all' ->]; [apply Hc; now left|].
  cbn [bind]. apply IH. intros q Hq. apply Hc. now right.
Qed.

Lemma parseTextWithFormatting_total text :
  exists n, parseTextWithFormatting text = Some n.
Proof.
  unfold parseTextWithFormatting.
  destruct (scanPatterns_total text patterns patterns_consume []) as [all ->]. simpl.
  destruct (length (formatElements text all) =? 0); eauto.
Qed.

Lemma findLinks_total text : exists all, findLinks text = Some all.
Proof.
  unfold findLinks, markdownLinks, plainUrls.
  edestruct (whileExec_total (A := list linkEntry)) as (ms & _ & ->);
    [exact markdownLinkRe_consumes|]. cbn [bind].
  edestruct (whileExec_total (A := list linkEntry)) as (us & _ & ->);
    [exact urlRe_consumes|]. cbn [bind]. eauto.
Qed.

Lemma linkStep_total text links : forall st,
  exists st', fold_left (linkStep text) links (Some st) = Some st'.
Proof.
  induction links as [|l links IH]; intros [elements lastIndex]; simpl; [eauto|].
  destruct (lastIndex <? link_start l); [|apply IH].
  destruct (JS.truthy _); [|apply IH].
  destruct (parseTextWithFormatting_total
              (JS.substring text lastIndex (link_start l))) as [f ->].
  apply IH.
Qed.

Lemma parseInlineMarkdown_total text :
  exists n, parseInlineMarkdown text = Some n.
Proof.
  unfold parseInlineMarkdown.
  destruct (negb _ && negb _); [apply parseTextWithFormatting_total|].
  destruct (findLinks_total text) as [all ->]. simpl.
  destruct (linkStep_total text all ([], 0)) as [[elements lastIndex] ->]. simpl.
  destruct (lastIndex <? length text); [|simpl; eauto].
  destruct (JS.truthy _); [|simpl; eauto].
  destruct (parseTextWithFormatting_total (JS.substringFrom text lastIndex)) as [f ->].
  simpl. eauto.
Qed.

Lemma renderBlock_total b : exists e, renderBlock b = Some e.
Proof.
  destruct b as [l t|ls|t|[n|] t|t|]; simpl; eauto;
    destruct (parseInlineMarkdown_total t) as [body ->]; simpl; eauto.
Qed.

Lemma renderBlocks_total bs : exists es, renderBlocks bs = Some es.
Proof.
  induction bs as [|b bs [es IH]]; simpl; [eauto|].
  destruct (renderBlock_total b) as [e ->]. rewrite IH. simpl. eauto.
Qed.

(** ** The block loop and the segmentation *)

Lemma nth_skipn_cons {A} (l : list A) i d :
  i < length l -> skipn i l = nth i l d :: skipn (S i) l.
Proof.
  revert i; induction l as [|x l IH]; intros [|i] H; simpl in *; try lia.
  - reflexivity.
  - apply IH. lia.
Qed.

Lemma collectCode_spec (lines : list str) : forall fuel i code,
  length lines - i < fuel ->
  exists j,
    collectCode fuel lines i code = Some (j, code ++ firstn (j - i) (skipn i lines)) /\
    i <= j <= Nat.max i (length lines) /\
    (forall k, i <= k < j -> JS.startsWith fence (nth k lines []) = false) /\
    (j < length lines -> JS.startsWith fence (nth j lines []) = true).
Proof.
  induction fuel as [|fuel IH]; intros i code Hf; [lia|]. cbn [collectCode].
  destruct (Nat.ltb_spec i (length lines)) as [Hi|Hi]; cbn [andb].
  - destruct (JS.startsWith fence (nth i lines [])) eqn:E; cbn [negb].
    + exists i. rewrite Nat.sub_diag, app_nil_r.
      repeat split; auto; try lia; intros; lia.
    + destruct (IH (S i) (code ++ [nth i lines []])) as (j & Hj & Hij & Hk & Hl); [lia|].
      exists j. rewrite Hj. repeat split; auto; try lia.
      * f_equal. f_equal. rewrite <- app_assoc. f_equal.
        rewrite (nth_skipn_cons lines i []) by assumption.
        replace (j - i) with (S (j - S i)) by lia. reflexivity.
      * intros k Hki. destruct (Nat.eq_dec k i) as [->|]; [assumption | apply Hk; lia].
  - exists i. rewrite Nat.sub_diag, app_nil_r.
    repeat split; auto; try lia; intros; lia.
Qed.

Lemma segment_code body : forall code rest,
  forallb (fun l => negb (JS.startsWith fence l)) body = true ->
  match rest with [] => True | l :: _ => JS.startsWith fence l = true end ->
  segment (Some code) (body ++ rest) = CodeBlock (code ++ body) :: segment None (tl rest).
Proof.
  induction body as [|l body IH]; intros code rest Hb Hr; cbn [app segment].
  - rewrite app_nil_r.
    destruct rest as [|l rest]; cbn [segment tl]; [reflexivity | now rewrite Hr].
  - cbn [forallb] in Hb. apply andb_true_iff in Hb as [Hl Hb].
    apply negb_true_iff in Hl. rewrite Hl, IH by assumption.
    now rewrite <- app_assoc.
Qed.

Lemma fence_line line :
  JS.startsWith fence line = true -> opensCode line = true.
Proof.
  intros H. apply startsWith_prefix in H as [r ->]. reflexivity.
Qed.

Lemma opensCode_fence line :
  opensCode line = true -> JS.startsWith fence line = true.
Proof.
  unfold opensCode. intros H. now apply andb_true_iff in H as [_ H].
Qed.

Lemma lineStep_fence (lines : list str) i elements :
  JS.startsWith fence (nth i lines []) = true ->
  lineStep lines i elements =
  (r <- collectCode (S (length lines)) lines (S i) [] ;;
   Some (fst r, elements ++ [codeBlockElement (snd r)])).
Proof.
  intros H. unfold lineStep. cbv zeta.
  match goal with |- context [JS.startsWith (lit "# ") ?l] => set (line := l) end.
  change (JS.startsWith fence line = true) in H.
  apply startsWith_prefix in H as [r Hr]. rewrite Hr.
  change (JS.startsWith (lit "# ") (fence ++ r)) with false.
  change (JS.startsWith (lit "## ") (fence ++ r)) with false.
  change (JS.startsWith (lit "### ") (fence ++ r)) with false.
  change (JS.startsWith fence (fence ++ r)) with true. cbv iota.
  destruct (collectCode (S (length lines)) lines (S i) []) as [[j c]|]; reflexivity.
Qed.

Lemma lineStep_classify (lines : list str) i elements :
  opensCode (nth i lines []) = false ->
  lineStep lines i elements =
  match classify (nth i lines []) with
  | Some b => e <- renderBlock b ;; Some (i, elements ++ [e])
  | None => Some (i, elements)
  end.
Proof.
  unfold lineStep, classify, opensCode. cbv zeta.
  match goal with |- context [JS.startsWith (lit "# ") ?l] => set (line := l) end.
  destruct (JS.startsWith (lit "# ") line); [reflexivity|].
  destruct (JS.startsWith (lit "## ") line); [reflexivity|].
  destruct (JS.startsWith (lit "### ") line); [reflexivity|].
  cbn [negb andb]. intros ->.
  destruct (JS.startsWith (lit "> ") line); [reflexivity|].
  destruct (JS.startsWith (lit "- ") line || JS.startsWith (lit "* ") line).
  { cbn [renderBlock]. now destruct (parseInlineMarkdown _). }
  destruct (RegExp.testAtStart RegExp.orderedTestRe line).
  { destruct (RegExp.matchAtStart RegExp.orderedCaptureRe line); [|reflexivity].
    cbn [renderBlock]. now destruct (parseInlineMarkdown _). }
  destruct (JS.truthy (JS.trim line)); [|reflexivity].
  cbn [renderBlock]. now destruct (parseInlineMarkdown _).
Qed.

Lemma skipn_S_tl {A} (l : list A) : forall j, skipn (S j) l = tl (skipn j l).
Proof.
  induction l as [|x l IH]; intros [|j]; try reflexivity. apply (IH j).
Qed.

Lemma forallb_range {A} (f : A -> bool) (l : list A) d : forall a n,
  (forall k, a <= k < a + n -> f (nth k l d) = true) ->
  a + n <= length l ->
  forallb f (firstn n (skipn a l)) = true.
Proof.
  intros a n; revert a; induction n as [|n IH]; intros a Hk Hl; [reflexivity|].
  rewrite (nth_skipn_cons l a d) by lia. cbn [firstn forallb].
  rewrite Hk by lia. apply (IH (S a)); [intros; apply Hk|]; lia.
Qed.

Lemma skipn_head {A} (l : list A) d j :
  match skipn j l with
  | [] => length l <= j
  | x :: _ => j < length l /\ x = nth j l d
  end.
Proof.
  destruct (Nat.lt_ge_cases j (length l)) as [H|H].
  - rewrite (nth_skipn_cons l j d) by assumption. now split.
  - now rewrite skipn_all2.
Qed.

(** The segmentation left by a code block that opens before line [i]. *)
Lemma segment_collected (lines : list str) i j :
  i <= j <= Nat.max i (length lines) ->
  (forall k, i <= k < j -> JS.startsWith fence (nth k lines []) = false) ->
  (j < length lines -> JS.startsWith fence (nth j lines []) = true) ->
  segment (Some []) (skipn i lines) =
  CodeBlock (firstn (j - i) (skipn i lines)) :: segment None (skipn (S j) lines).
Proof.
  intros Hij Hk Hj.
  destruct (Nat.lt_ge_cases (length lines) i) as [Hi|Hi].
  { assert (j = i) by lia; subst j.
    rewrite Nat.sub_diag, !skipn_all2 by lia. reflexivity. }
  rewrite <- (firstn_skipn (j - i) (skipn i lines)) at 1.
  rewrite skipn_skipn. replace (j - i + i) with j by lia.
  rewrite segment_code, skipn_S_tl; [reflexivity | |].
  - apply (forallb_range _ lines []); [|lia].
    intros k Hki. rewrite Hk by lia. reflexivity.
  - pose proof (skipn_head lines [] j) as Hh.
    destruct (skipn j lines); [exact I|].
    destruct Hh as [Hlt ->]. now apply Hj.
Qed.

Lemma forLines_segment (lines : list str) : forall fuel i elements,
  length lines - i < fuel ->
  forLines fuel lines i elements =
  (es <- renderBlocks (segment None (skipn i lines)) ;; Some (elements ++ es)).
Proof.
  induction fuel as [|fuel IH]; intros i elements Hf; [lia|]. cbn [forLines].
  destruct (Nat.ltb_spec i (length lines)) as [Hi|Hi].
  - rewrite (nth_skipn_cons lines i []) by assumption. cbn [segment].
    destruct (opensCode (nth i lines [])) eqn:Eo.
    + rewrite lineStep_fence by now apply opensCode_fence.
      destruct (collectCode_spec lines (S (length lines)) (S i) [])
        as (j & -> & Hij & Hk & Hj); [lia|].
      cbn [bind fst snd app]. rewrite IH by lia.
      rewrite (segment_collected lines (S i) j) by assumption.
      cbn [renderBlocks renderBlock bind].
      destruct (renderBlocks (segment None (skipn (S j) lines))); cbn [bind];
        [now rewrite <- app_assoc | reflexivity].
    + rewrite lineStep_classify by assumption.
      destruct (classify (nth i lines [])) as [b|]; [|now apply IH; lia].
      cbn [renderBlocks]. destruct (renderBlock b) as [e|]; [|reflexivity].
      cbn [bind]. rewrite IH by lia.
      destruct (renderBlocks (segment None (skipn (S i) lines))); cbn [bind];
        [now rewrite <- app_assoc | reflexivity].
  - rewrite skipn_all2 by assumption. cbn. now rewrite app_nil_r.
Qed.

(** [parseMarkdown] is the segmentation followed by the rendering of
    each segment. *)
Lemma parseMarkdown_segments text :
  parseMarkdown text = renderBlocks (segmentBlocks text).
Proof.
  unfold parseMarkdown, segmentBlocks. rewrite forLines_segment by lia.
  cbn [skipn]. now destruct (renderBlocks _).
Qed.

Lemma parseMarkdown_total text : exists es, parseMarkdown text = Some es.
Proof. rewrite parseMarkdown_segments. apply renderBlocks_total. Qed.

(** ** Sorting *)

Section SortFacts.
Context {A : Type} (key : A -> nat).

Let le_key (a b : A) : Prop := key a <= key b.

Lemma insertBy_perm x l : Permutation (insertBy key x l) (x :: l).
Proof.
  induction l as [|y l IH]; simpl; [reflexivity|].
  destruct (key x <=? key y); [reflexivity|].
  rewrite IH. apply perm_swap.
Qed.

Lemma sortBy_perm l : Permutation (sortBy key l) l.
Proof.
  induction l as [|x l IH]; simpl; [reflexivity|].
  rewrite insertBy_perm. now constructor.
Qed.

Lemma insertBy_sorted x l :
  StronglySorted le_key l -> StronglySorted le_key (insertBy key x l).
Proof.
  induction 1 as [|y l Hs IH Hy]; simpl.
  - repeat constructor.
  - destruct (Nat.leb_spec (key x) (key y)) as [Hle|Hgt].
    + constructor; [now constructor|].
      constructor; [exact Hle|].
      eapply Forall_impl; [|exact Hy]. unfold le_key. intros a Ha. lia.
    + constructor; [assumption|].
      eapply Permutation_Forall; [symmetry; apply insertBy_perm|].
      constructor; [unfold le_key; lia | assumption].
Qed.

Lemma sortBy_sorted l : StronglySorted le_key (sortBy key l).
Proof.
  induction l as [|x l IH]; simpl; [constructor | now apply insertBy_sorted].
Qed.

End SortFacts.

(** ** Link candidates *)

Lemma fold_left_push {A B} (f : A -> B) (ms : list A) : forall acc,
  fold_left (fun a m => a ++ [f m]) ms acc = acc ++ map f ms.
Proof.
  induction ms as [|m ms IH]; intros acc; simpl; [now rewrite app_nil_r|].
  now rewrite IH, <- app_assoc.
Qed.

Lemma markdownLinks_matches text :
  exists mds, RegExp.matches RegExp.markdownLinkRe text = Some mds /\
              markdownLinks text = Some (map markdownEntry mds).
Proof.
  unfold markdownLinks.
  edestruct (whileExec_total (A := list linkEntry)) as (mds & Hm & ->);
    [exact markdownLinkRe_consumes|].
  exists mds. split; [assumption|]. now rewrite (fold_left_push markdownEntry).
Qed.

Lemma isPartOfMarkdownLink_plain md ps m :
  forallb (fun l => negb (isMarkdown l)) ps = true ->
  isPartOfMarkdownLink (md ++ ps) m = isPartOfMarkdownLink md m.
Proof.
  intros Hp. unfold isPartOfMarkdownLink. rewrite existsb_app.
  induction ps as [|l ps IH]; simpl; [apply orb_false_r|].
  simpl in Hp. apply andb_true_iff in Hp as [Hl Hp].
  apply negb_true_iff in Hl. rewrite Hl. simpl. now apply IH.
Qed.

Lemma isPartOfMarkdownLink_entries mds m :
  isPartOfMarkdownLink (map markdownEntry mds) m = startsInside mds m.
Proof.
  unfold isPartOfMarkdownLink, startsInside.
  induction mds as [|k mds IH]; simpl; [reflexivity|]. now rewrite IH.
Qed.

Lemma plainUrls_fold md us : forall ps,
  forallb (fun l => negb (isMarkdown l)) ps = true ->
  fold_left (fun a m => if isPartOfMarkdownLink a m then a else a ++ [plainEntry m])
            us (md ++ ps) =
  md ++ ps ++ map plainEntry (filter (fun m => negb (isPartOfMarkdownLink md m)) us).
Proof.
  induction us as [|u us IH]; intros ps Hp; simpl; [now rewrite app_nil_r|].
  rewrite isPartOfMarkdownLink_plain by assumption.
  destruct (isPartOfMarkdownLink md u); simpl; [now apply IH|].
  rewrite <- app_assoc, IH.
  - now rewrite <- app_assoc.
  - rewrite forallb_app, Hp. reflexivity.
Qed.

Lemma findLinks_candidates text :
  exists mds urls,
    RegExp.matches RegExp.markdownLinkRe text = Some mds /\
    RegExp.matches RegExp.urlRe text = Some urls /\
    findLinks text = Some (sortBy link_start (candidates mds urls)).
Proof.
  unfold findLinks.
  destruct (markdownLinks_matches text) as (mds & Hm & ->). cbn [bind].
  unfold plainUrls.
  edestruct (whileExec_total (A := list linkEntry)) as (urls & Hu & ->);
    [exact urlRe_consumes|]. cbn [bind].
  exists mds, urls. repeat split; try assumption.
  rewrite <- (app_nil_r (map markdownEntry mds)) at 1.
  rewrite plainUrls_fold by reflexivity. unfold candidates. cbn [app].
  rewrite (filter_ext _ (fun u => negb (startsInside mds u))); [reflexivity|].
  intros u. now rewrite isPartOfMarkdownLink_entries.
Qed.

Lemma startsInside_iff mds u :
  startsInside mds u = true <->
  exists k, In k mds /\
            RegExp.index k <= RegExp.index u < RegExp.index k + length (RegExp.whole k).
Proof.
  unfold startsInside. rewrite existsb_exists. split.
  - intros (k & Hk & H). apply andb_true_iff in H as [H1 H2].
    apply Nat.leb_le in H1. apply Nat.ltb_lt in H2. now exists k.
  - intros (k & Hk & H1 & H2). exists k. split; [assumption|].
    apply andb_true_iff. split; [now apply Nat.leb_le | now apply Nat.ltb_lt].
Qed.

(** C5.  Link extraction keeps every markdown-link match, discards a
    bare-URL match exactly when its start offset lies in the range
    from start to end (end excluded) of some markdown-link match, and
    returns the candidates left as one sequence in ascending order of
    start offset.  For the text [see [here](https://a.com) now] the
    result is the one markdown link: the bare URL found inside it is
    discarded. *)
Theorem bare_url_inside_markdown_link_discarded :
  (forall text, exists mds urls all,
      RegExp.matches RegExp.markdownLinkRe text = Some mds /\
      RegExp.matches RegExp.urlRe text = Some urls /\
      findLinks text = Some all /\
      Permutation all (candidates mds urls) /\
      StronglySorted (fun a b => link_start a <= link_start b) all /\
      forall u, startsInside mds u = true <->
                exists k, In k mds /\
                  RegExp.index k <= RegExp.index u
                    < RegExp.index k + length (RegExp.whole k)) /\
  RegExp.matches RegExp.urlRe (lit "see [here](https://a.com) now") =
    Some [ {| RegExp.index := 11; RegExp.whole := lit "https://a.com)";
              RegExp.groups := [] |} ] /\
  findLinks (lit "see [here](https://a.com) now") =
    Some [ {| link_start := 4; link_end := 25; link_text := lit "here";
              link_url := lit "https://a.com"; link_type := markdown |} ].
Proof.
  split; [|split; reflexivity].
  intros text. destruct (findLinks_candidates text) as (mds & urls & Hm & Hu & Hf).
  exists mds, urls, (sortBy link_start (candidates mds urls)).
  repeat split; try assumption.
  - apply sortBy_perm.
  - apply sortBy_sorted.
  - now apply startsInside_iff.
  - now apply startsInside_iff.
Qed.

Lemma matches_sound re text ms :
  RegExp.matches re text = Some ms -> Forall (matchAt re text 0) ms.
Proof. apply matchesFrom_sound. Qed.

Lemma markdownEntry_parts text m :
  matchAt RegExp.markdownLinkRe text 0 m ->
  link_text (markdownEntry m) <> [] /\ link_url (markdownEntry m) <> [].
Proof.
  intros [_ H]. apply markdownLinkRe_found in H as (d & t & r & Hg & _ & _ & Hd & Ht & _).
  unfold markdownEntry, RegExp.group. simpl. rewrite Hg. simpl. now split.
Qed.

(** C10.  The markdown-link scan only recognises links whose display
    text and target are both non-empty: every entry the scan pushes,
    and so every markdown entry of the sorted candidates, has a
    non-empty text and a non-empty URL; [[](https://a.com)] and
    [[text]()] give no markdown-link candidate. *)
Theorem markdown_link_text_and_target_nonempty :
  (forall text, exists links all,
      markdownLinks text = Some links /\
      findLinks text = Some all /\
      Forall (fun l => link_text l <> [] /\ link_url l <> []) links /\
      Forall (fun l => link_text l <> [] /\ link_url l <> []) (filter isMarkdown all)) /\
  markdownLinks (lit "[](https://a.com)") = Some [] /\
  markdownLinks (lit "[text]()") = Some [].
Proof.
  split; [|split; reflexivity].
  intros text. destruct (findLinks_candidates text) as (mds & urls & Hm & Hu & Hf).
  destruct (markdownLinks_matches text) as (mds' & Hm' & Hl).
  rewrite Hm in Hm'. injection Hm' as <-.
  assert (Hmd : Forall (fun l => link_text l <> [] /\ link_url l <> [])
                       (map markdownEntry mds)).
  { apply Forall_map. eapply Forall_impl; [|apply (matches_sound _ _ _ Hm)].
    intros m. apply markdownEntry_parts. }
  exists (map markdownEntry mds), (sortBy link_start (candidates mds urls)).
  repeat split; try assumption.
  apply Forall_forall. intros l Hl'. apply filter_In in Hl' as [Hin Hk].
  apply (Permutation_in _ (sortBy_perm link_start _)) in Hin.
  unfold candidates in Hin. apply in_app_or in Hin as [Hin|Hin].
  - rewrite Forall_forall in Hmd. now apply Hmd.
  - apply in_map_iff in Hin as (u & <- & _). discriminate.
Qed.

(** ** Independence of the fuel *)

Lemma matchesFrom_more_fuel re text : forall fuel fuel' li ms,
  RegExp.matchesFrom fuel re text li = Some ms ->
  fuel <= fuel' ->
  RegExp.matchesFrom fuel' re text li = Some ms.
Proof.
  induction fuel as [|fuel IH]; intros fuel' li ms; [discriminate|].
  destruct fuel' as [|fuel']; [lia|]. cbn [RegExp.matchesFrom].
  destruct (RegExp.exec re text li) as [m|]; [|auto].
  destruct (RegExp.matchesFrom fuel re text (RegExp.nextIndex m)) as [ms'|] eqn:E;
    [|discriminate].
  intros [= <-] Hle. rewrite (IH fuel' _ _ E); [reflexivity | lia].
Qed.

Lemma whileExec_more_fuel {A} (body : RegExp.ExecArray -> A -> A) re text fuel fuel' li acc r :
  RegExp.whileExec fuel re text li body acc = Some r ->
  fuel <= fuel' ->
  RegExp.whileExec fuel' re text li body acc = Some r.
Proof.
  rewrite !whileExec_fold.
  destruct (RegExp.matchesFrom fuel re text li) as [ms|] eqn:E; [|discriminate].
  intros H Hle. now rewrite (matchesFrom_more_fuel _ _ _ _ _ _ E Hle).
Qed.

Lemma collectCode_more_fuel (lines : list str) : forall fuel fuel' i code r,
  collectCode fuel lines i code = Some r ->
  fuel <= fuel' ->
  collectCode fuel' lines i code = Some r.
Proof.
  induction fuel as [|fuel IH]; intros fuel' i code r; [discriminate|].
  destruct fuel' as [|fuel']; [lia|]. cbn [collectCode].
  destruct ((i <? length lines) && negb (JS.startsWith fence (nth i lines [])));
    [|auto].
  intros H Hle. apply (IH fuel'); [assumption | lia].
Qed.

Lemma forLines_more_fuel (lines : list str) fuel i elements :
  length lines - i < fuel ->
  forLines fuel lines i elements = forLines (S (length lines)) lines i elements.
Proof.
  intros H. rewrite !forLines_segment by lia. reflexivity.
Qed.

(** ** The component *)

(** C9.  Rendering terminates with a defined result for every message:
    the component, the block parser, the link parser and the emphasis
    parser each return a value on the fuel the model gives their
    loops, whatever the text, and the detector is a total test; more
    fuel gives the same result. *)
Theorem render_total (message : str) (isUser : bool) (timestamp : str) :
  (exists n, MessageBubble message isUser timestamp = Some n) /\
  (exists n, bubbleContent message isUser = Some n) /\
  (exists es, parseMarkdown message = Some es) /\
  (exists n, parseInlineMarkdown message = Some n) /\
  (exists n, parseTextWithFormatting message = Some n) /\
  (exists all, findLinks message = Some all) /\
  (hasMarkdown message = true \/ hasMarkdown message = false) /\
  (forall fuel, length (JS.split message) < fuel ->
     forLines fuel (JS.split message) 0 [] = parseMarkdown message) /\
  (forall p fuel, In p patterns -> length message < fuel ->
     RegExp.matchesFrom fuel (regex p) message 0 = RegExp.matches (regex p) message).
Proof.
  assert (Hc : exists n, bubbleContent message isUser = Some n).
  { unfold bubbleContent. destruct (negb isUser && hasMarkdown message); [|eauto].
    destruct (parseMarkdown_total message) as [es ->]. cbn [bind]. eauto. }
  repeat split.
  - unfold MessageBubble. destruct Hc as [n ->]. cbn [bind]. eauto.
  - exact Hc.
  - apply parseMarkdown_total.
  - apply parseInlineMarkdown_total.
  - apply parseTextWithFormatting_total.
  - apply findLinks_total.
  - destruct (hasMarkdown message); auto.
  - intros fuel Hf. unfold parseMarkdown. apply forLines_more_fuel. lia.
  - intros p fuel Hp Hf.
    destruct (matches_total (regex p) message (patterns_consume p Hp)) as [ms Hms].
    rewrite Hms. apply (matchesFrom_more_fuel _ _ _ _ _ _ Hms). lia.
Qed.

(** A blockquote of a bot message is a block with text whose content
    does not go through inline resolution: the markdown link of the
    message below is shown as it is written and is not pressable,
    where [parseInlineMarkdown] on the same text gives a pressable link
    showing its display text. *)
Lemma blockquote_in_bubble_not_resolved :
  bubbleContent (lit "> [a](https://b.c)") false =
    Some (View [styles.markdownContainer]
            [blockquoteElement (lit "[a](https://b.c)")]) /\
  option_map pressTargets (bubbleContent (lit "> [a](https://b.c)") false) = Some [] /\
  exists body,
    parseInlineMarkdown (lit "[a](https://b.c)") = Some body /\
    textOf body = lit "a" /\
    pressTargets body = [lit "https://b.c"] /\
    bubbleContent (lit "> [a](https://b.c)") false <>
      Some (View [styles.markdownContainer]
              [View [styles.blockquote] [Text [styles.blockquoteText] None [body]]]).
Proof.
  split; [reflexivity|]. split; [reflexivity|].
  eexists. split; [reflexivity|]. repeat split. discriminate.
Qed.

(** C1, amended.  For every message and every [isUser]: when [isUser]
    is true or the detector answers false, the bubble shows one literal
    text element holding the message unchanged; otherwise it shows the
    sequence of block segments of the message, each rendered, where
    the text of every list item (bullet or numbered) and of every
    paragraph goes through [parseInlineMarkdown], and headings, code
    blocks and blockquotes show their text as it is. *)
Theorem render_dispatch (message : str) (isUser : bool) :
  bubbleContent message isUser =
  (if isUser || negb (hasMarkdown message)
   then Some (plainMessage message isUser)
   else option_map (View [styles.markdownContainer])
                   (renderBlocks (segmentBlocks message))) /\
  textOf (plainMessage message isUser) = message /\
  (exists es, renderBlocks (segmentBlocks message) = Some es) /\
  (forall b,
     renderBlock b =
     match b with
     | Heading l t => Some (heading (headingStyle l) t)
     | CodeBlock codeLines => Some (codeBlockElement codeLines)
     | Blockquote t => Some (blockquoteElement t)
     | ListItem None t =>
         option_map (listItemElement [Str bullet]) (parseInlineMarkdown t)
     | ListItem (Some n) t =>
         option_map (listItemElement [Str n; Str (lit ".")]) (parseInlineMarkdown t)
     | Paragraph t => option_map paragraphElement (parseInlineMarkdown t)
     | Spacer => Some emptyLineElement
     end) /\
  (forall l t, textOf (heading (headingStyle l) t) = t) /\
  (forall codeLines, textOf (codeBlockElement codeLines) = JS.join codeLines) /\
  (forall t, textOf (blockquoteElement t) = t).
Proof.
  split; [|split; [|split; [|split; [|repeat split]]]].
  - unfold bubbleContent. rewrite parseMarkdown_segments.
    destruct isUser; [reflexivity|]. cbn [negb andb orb].
    destruct (hasMarkdown message); cbn [negb]; [|reflexivity].
    now destruct (renderBlocks (segmentBlocks message)).
  - simpl. apply app_nil_r.
  - apply renderBlocks_total.
  - intros [l t|ls|t|[n|] t|t|]; cbn [renderBlock]; try reflexivity;
      now destruct (parseInlineMarkdown t).
  - intros l t. simpl. apply app_nil_r.
  - intros ls. simpl. now rewrite !app_nil_r.
  - intros t. simpl. now rewrite !app_nil_r.
Qed.

(** ** Code blocks *)

(** The collection of a code block stops at a line that starts with the
    fence without being equal to it: on the four lines below the body
    of the loop at line 0 leaves the cursor on line 2 and pushes a code
    block holding the one line [a]. *)
Lemma fence_closed_by_longer_line :
  let lines := [fence; lit "a"; lit "```x"; lit "b"] in
  lineStep lines 0 [] = Some (2, [codeBlockElement [lit "a"]]) /\
  nth 2 lines [] <> fence /\
  exists body,
    parseInlineMarkdown (lit "b") = Some body /\
    parseMarkdown (JS.join lines) =
      Some [codeBlockElement [lit "a"]; paragraphElement body].
Proof.
  cbv zeta. split; [reflexivity|]. split; [discriminate|].
  eexists. split; reflexivity.
Qed.

(** C3, amended.  A line that starts with three backticks opens a code
    block: the lines after it are collected as they are, up to the
    first line that starts with three backticks or to the end of the
    lines; one code block element holding the collected lines is
    pushed, and the loop goes on after the closing line.  When no later
    line starts with three backticks the block takes every line that
    is left and the loop ends there. *)
Theorem code_block_collected (lines : list str) (i : nat) (elements : list node) :
  i < length lines ->
  JS.startsWith fence (nth i lines []) = true ->
  exists j,
    S i <= j <= length lines /\
    (forall k, S i <= k < j -> JS.startsWith fence (nth k lines []) = false) /\
    (j < length lines -> JS.startsWith fence (nth j lines []) = true) /\
    lineStep lines i elements =
      Some (j, elements ++ [codeBlockElement (firstn (j - S i) (skipn (S i) lines))]) /\
    (forall fuel,
        forLines (S fuel) lines i elements =
        forLines fuel lines (S j)
          (elements ++ [codeBlockElement (firstn (j - S i) (skipn (S i) lines))])) /\
    (j = length lines ->
       forLines 2 lines i elements =
       Some (elements ++ [codeBlockElement (skipn (S i) lines)])).
Proof.
  intros Hi Hf.
  destruct (collectCode_spec lines (S (length lines)) (S i) [])
    as (j & Hc & Hij & Hk & Hj); [lia|].
  assert (Hs : lineStep lines i elements =
               Some (j, elements ++
                        [codeBlockElement (firstn (j - S i) (skipn (S i) lines))])).
  { rewrite lineStep_fence by assumption. rewrite Hc. reflexivity. }
  assert (Hl : forall fuel,
             forLines (S fuel) lines i elements =
             forLines fuel lines (S j)
               (elements ++ [codeBlockElement (firstn (j - S i) (skipn (S i) lines))])).
  { intros fuel. cbn [forLines].
    destruct (Nat.ltb_spec i (length lines)); [|lia]. now rewrite Hs. }
  exists j. repeat split; try assumption; try lia.
  intros ->. rewrite Hl. cbn [forLines].
  destruct (Nat.ltb_spec (S (length lines)) (length lines)); [lia|].
  rewrite firstn_all2; [reflexivity|]. rewrite length_skipn. lia.
Qed.

Lemma code_block_collected_witness :
  let lines := [fence; lit "a"; lit "# b"; lit "```"; lit "c"] in
  exists j,
    1 <= j <= 5 /\
    (forall k, 1 <= k < j -> JS.startsWith fence (nth k lines []) = false) /\
    (j < 5 -> JS.startsWith fence (nth j lines []) = true) /\
    lineStep lines 0 [] =
      Some (j, [] ++ [codeBlockElement (firstn (j - 1) (skipn 1 lines))]) /\
    (forall fuel,
        forLines (S fuel) lines 0 [] =
        forLines fuel lines (S j)
          ([] ++ [codeBlockElement (firstn (j - 1) (skipn 1 lines))])) /\
    (j = 5 ->
       forLines 2 lines 0 [] = Some ([] ++ [codeBlockElement (skipn 1 lines)])).
Proof.
  cbv zeta.
  apply (code_block_collected [fence; lit "a"; lit "# b"; lit "```"; lit "c"] 0 []).
  - simpl. lia.
  - reflexivity.
Defined.

(** ** Blockquotes *)

(** The text of a blockquote is shown as it is: the emphasis markers of
    [> **x**] reach the output, and the element is not the one that
    would hold the result of [parseInlineMarkdown]. *)
Lemma blockquote_markup_kept :
  parseMarkdown (lit "> **x**") = Some [blockquoteElement (lit "**x**")] /\
  exists body,
    parseInlineMarkdown (lit "**x**") = Some body /\
    textOf body <> lit "**x**" /\
    parseMarkdown (lit "> **x**") <>
      Some [View [styles.blockquote] [Text [styles.blockquoteText] None [body]]].
Proof.
  split; [reflexivity|]. eexists. split; [reflexivity|]. split; discriminate.
Qed.

(** C8, amended.  For every line that begins with [> ], the remainder
    after the marker is shown as literal text in the blockquote
    element, without inline resolution: blockquotes bypass
    [parseInlineMarkdown] as headings and code blocks do. *)
Theorem blockquote_shown_literally (lines : list str) (i : nat) (elements : list node) :
  JS.startsWith (lit "> ") (nth i lines []) = true ->
  lineStep lines i elements =
    Some (i, elements ++ [blockquoteElement (JS.substringFrom (nth i lines []) 2)]) /\
  classify (nth i lines []) = Some (Blockquote (JS.substringFrom (nth i lines []) 2)) /\
  textOf (blockquoteElement (JS.substringFrom (nth i lines []) 2)) =
    JS.substringFrom (nth i lines []) 2.
Proof.
  intros H. apply startsWith_prefix in H as [r Hr].
  assert (Ho : opensCode (nth i lines []) = false) by now rewrite Hr.
  assert (Hc : classify (nth i lines []) =
               Some (Blockquote (JS.substringFrom (nth i lines []) 2)))
    by now rewrite Hr.
  rewrite lineStep_classify, Hc by assumption.
  repeat split. simpl. now rewrite !app_nil_r.
Qed.

Lemma blockquote_shown_literally_witness :
  lineStep [lit "> see [here](https://a.com)"] 0 [] =
    Some (0, [] ++ [blockquoteElement
                      (JS.substringFrom
                         (nth 0 [lit "> see [here](https://a.com)"] []) 2)]) /\
  classify (nth 0 [lit "> see [here](https://a.com)"] []) =
    Some (Blockquote
            (JS.substringFrom (nth 0 [lit "> see [here](https://a.com)"] []) 2)) /\
  textOf (blockquoteElement
            (JS.substringFrom (nth 0 [lit "> see [here](https://a.com)"] []) 2)) =
    JS.substringFrom (nth 0 [lit "> see [here](https://a.com)"] []) 2.
Proof.
  apply (blockquote_shown_literally [lit "> see [here](https://a.com)"] 0 []).
  reflexivity.
Defined.

(** ** The detector *)

Lemma existsb_eqb_In (c : char) (l : str) :
  existsb (N.eqb c) l = true <-> In c l.
Proof.
  rewrite existsb_exists. split.
  - intros (x & Hx & E). apply N.eqb_eq in E. now subst.
  - intros H. exists c. split; [assumption | apply N.eqb_refl].
Qed.

Lemma markupCharRe_test message :
  RegExp.test RegExp.markupCharRe message = true <->
  exists c, In c message /\ In c (lit "*_`#[]!-").
Proof.
  rewrite test_true. split.
  - intros (a & b & -> & Hb). unfold RegExp.markupCharRe in Hb.
    destruct b as [|c b]; [congruence|].
    destruct (existsb (N.eqb c) (lit "*_`#[]!-")) eqn:E; [|congruence].
    exists c. split; [apply in_elt | now apply existsb_eqb_In].
  - intros (c & Hm & Hs). apply in_split in Hm as (a & b & ->).
    exists a, (c :: b). split; [reflexivity|].
    unfold RegExp.markupCharRe. apply existsb_eqb_In in Hs. now rewrite Hs.
Qed.

Lemma schemeRe_test message :
  RegExp.test RegExp.schemeRe message = true <->
  (exists a b, message = a ++ lit "http://" ++ b) \/
  (exists a b, message = a ++ lit "https://" ++ b).
Proof.
  rewrite test_true. unfold RegExp.schemeRe. split.
  - intros (a & b & -> & Hb).
    destruct (RegExp.scheme b) as [[pre r]|] eqn:E; [|congruence].
    apply scheme_found in E as [-> [-> | ->]]; [left | right]; now exists a, r.
  - intros [(a & b & ->) | (a & b & ->)].
    + exists a, (lit "http://" ++ b). now rewrite scheme_http.
    + exists a, (lit "https://" ++ b). now rewrite scheme_https.
Qed.

Lemma orderedTestRe_test message :
  RegExp.testAtStart RegExp.orderedTestRe message = true <->
  exists digits c r,
    digits <> [] /\ forallb JS.isDigit digits = true /\ JS.isSpace c = true /\
    message = digits ++ 46%N :: c :: r.
Proof.
  unfold RegExp.testAtStart, RegExp.matchAtStart, RegExp.orderedTestRe. split.
  - destruct (RegExp.orderedPrefix message) as [[[digits c] r]|] eqn:E; [|discriminate].
    intros _. apply orderedPrefix_found in E as (-> & Hne & Hd & Hc).
    now exists digits, c, r.
  - intros (digits & c & r & Hne & Hd & Hc & ->).
    now rewrite orderedPrefix_complete.
Qed.

(** The detector answers true for a message with [> ] in the middle of
    a line, where the detector of the specification answers false. *)
Lemma blockquote_marker_inside_line :
  hasMarkdown (lit "a > b") = true /\
  needsStructuredParsing (lit "a > b") = false.
Proof. split; reflexivity. Qed.

(** C4, amended.  The detector returns true if and only if the message
    contains one of the characters [* _ ` # [ ] ! -], or three
    backticks, or the two characters [> ] anywhere, or starts with
    digits, a dot and a white space character, or contains [http://]
    or [https://]; it returns false for every other string. *)
Theorem hasMarkdown_iff (message : str) :
  hasMarkdown message = true <->
  (exists c, In c message /\ In c (lit "*_`#[]!-")) \/
  (exists a b, message = a ++ fence ++ b) \/
  (exists a b, message = a ++ lit "> " ++ b) \/
  (exists digits c r,
      digits <> [] /\ forallb JS.isDigit digits = true /\ JS.isSpace c = true /\
      message = digits ++ 46%N :: c :: r) \/
  (exists a b, message = a ++ lit "http://" ++ b) \/
  (exists a b, message = a ++ lit "https://" ++ b).
Proof.
  unfold hasMarkdown.
  rewrite !orb_true_iff, markupCharRe_test, !includes_infix,
    orderedTestRe_test, schemeRe_test.
  tauto.
Qed.

(** ** Emphasis *)

Lemma scanPattern_sound text p all all' :
  In p patterns ->
  Forall (entryOf text) all ->
  scanPattern text p all = Some all' ->
  Forall (entryOf text) all'.
Proof.
  intros Hp Hall. unfold scanPattern. rewrite whileExec_fold.
  destruct (RegExp.matchesFrom (S (length text)) (regex p) text 0) as [ms|] eqn:E;
    [|discriminate].
  intros [= <-]. rewrite (fold_left_push (formatEntry p)).
  apply Forall_app. split; [assumption|].
  apply Forall_map. eapply Forall_impl; [|apply (matchesFrom_sound _ _ _ _ _ E)].
  intros m Hm. unfold entryOf. simpl. auto.
Qed.

Lemma scanPatterns_sound text ps : forall all all',
  incl ps patterns ->
  Forall (entryOf text) all ->
  scanPatterns text ps all = Some all' ->
  Forall (entryOf text) all'.
Proof.
  induction ps as [|p ps IH]; intros all all' Hi Hall; cbn [scanPatterns].
  - now intros [= <-].
  - destruct (scanPattern text p all) as [all1|] eqn:E; [|discriminate].
    cbn [bind]. apply IH.
    + intros q Hq. apply Hi. now right.
    + eapply scanPattern_sound; [apply Hi; now left | exact Hall | exact E].
Qed.

Lemma patterns_delimited p :
  In p patterns ->
  exists delim, In (delim, style p) delimiters /\
                regex p = RegExp.delimited delim delim.
Proof.
  intros [<- | [<- | [<- | []]]].
  - exists (lit "**"). split; [now left | reflexivity].
  - exists (lit "*"). split; [right; now left | reflexivity].
  - exists (lit "`"). split; [right; right; now left | reflexivity].
Qed.

(** A bold span with no text: the four asterisks are one bold match
    whose group is empty, and the element pushed for it shows the empty
    string. *)
Lemma empty_bold_span :
  RegExp.boldRe (lit "****") = Some (lit "****", [[]]) /\
  parseTextWithFormatting (lit "****") =
    Some (Text [] None
            [ Text [styles.normalText; styles.bold] None [Str []];
              Text [styles.normalText; styles.italic] None [Str []];
              Text [styles.normalText; styles.italic] None [Str []] ]).
Proof. split; reflexivity. Qed.

(** C7, amended.  Each of the three scans of emphasis extraction (bold
    between double asterisks, italic between single asterisks, inline
    code between single backticks) matches the shortest text between
    its delimiters, the empty text included: every entry of
    [allMatches] is an opening delimiter, a text without line
    terminators and the closing delimiter, found at the index of the
    entry, and the closing delimiter does not occur at any earlier
    position of that text.  The text of a styled span may be empty. *)
Theorem emphasis_match_shortest (text : str) (all : list formatMatch) (e : formatMatch) :
  scanPatterns text patterns [] = Some all ->
  In e all ->
  exists delim inner r,
    In (delim, style (fm_pattern e)) delimiters /\
    RegExp.group 1 (fm_match e) = inner /\
    RegExp.group 0 (fm_match e) = delim ++ inner ++ delim /\
    skipn (fm_index e) text = delim ++ inner ++ delim ++ r /\
    forallb notLineTerminator inner = true /\
    forall k, k < length inner ->
      JS.startsWith delim (skipn k (inner ++ delim ++ r)) = false.
Proof.
  intros Hs He.
  apply scanPatterns_sound in Hs; [|apply incl_refl | constructor].
  rewrite Forall_forall in Hs. destruct (Hs e He) as (Hp & Hi & _ & Hm).
  destruct (patterns_delimited _ Hp) as (delim & Hd & Hre).
  rewrite Hre in Hm. apply delimited_found in Hm
    as (inner & r & Hg & Hw & Ht & Hlt & Hk).
  exists delim, inner, r. repeat split; try assumption.
  - unfold RegExp.group. now rewrite Hg.
  - rewrite Hi, Ht, Hw. now rewrite <- !app_assoc.
Qed.

Lemma emphasis_match_shortest_witness :
  let e := formatEntry {| regex := RegExp.italicRe; style := styles.italic |}
             {| RegExp.index := 2; RegExp.whole := lit "*b c*";
                RegExp.groups := [lit "b c"] |} in
  exists delim inner r,
    In (delim, style (fm_pattern e)) delimiters /\
    RegExp.group 1 (fm_match e) = inner /\
    RegExp.group 0 (fm_match e) = delim ++ inner ++ delim /\
    skipn (fm_index e) (lit "a *b c* d") = delim ++ inner ++ delim ++ r /\
    forallb notLineTerminator inner = true /\
    forall k, k < length inner ->
      JS.startsWith delim (skipn k (inner ++ delim ++ r)) = false.
Proof.
  cbv zeta.
  apply (emphasis_match_shortest (lit "a *b c* d")
           [formatEntry {| regex := RegExp.italicRe; style := styles.italic |}
              {| RegExp.index := 2; RegExp.whole := lit "*b c*";
                 RegExp.groups := [lit "b c"] |}]).
  - reflexivity.
  - now left.
Defined.

(** C2.  The spans of emphasis extraction do not tile the text when
    matches of different patterns overlap: for [**bold**] the bold
    match and the two italic matches on its asterisks are all kept, so
    the word is shown twice; for a backtick span that overlaps an
    italic one the shared character is shown twice. *)
Theorem overlapping_emphasis_repeats_text :
  parseTextWithFormatting (lit "**bold**") =
    Some (Text [] None
            [ Text [styles.normalText; styles.bold] None [Str (lit "bold")];
              Text [styles.normalText; styles.italic] None [Str []];
              Text [styles.normalText] None [Str (lit "bold")];
              Text [styles.normalText; styles.italic] None [Str []] ]) /\
  option_map textOf (parseTextWithFormatting (lit "**bold**")) = Some (lit "boldbold") /\
  option_map textOf (parseTextWithFormatting (lit "`*a`*")) = Some (lit "*aa`") /\
  option_map textOf (bubbleContent (lit "**bold**") false) = Some (lit "boldbold").
Proof. repeat split; reflexivity. Qed.

(** ** Numbered lists *)

Lemma digit_first_not_marker (d : char) (s : str) (marker : str) :
  JS.isDigit d = true ->
  In marker [lit "# "; lit "## "; lit "### "; fence; lit "> "; lit "- "; lit "* "] ->
  JS.startsWith marker (d :: s) = false.
Proof.
  intros Hd Hm. simpl in Hm.
  destruct Hm as [<- | [<- | [<- | [<- | [<- | [<- | [<- | []]]]]]]];
    cbn [JS.startsWith lit fence N_of_ascii N_of_digits];
    match goal with
    | |- N.eqb ?x d && _ = false =>
        destruct (N.eqb_spec x d) as [<-|]; [discriminate Hd | reflexivity]
    end.
Qed.

(** A line gives no segment exactly when it is a numbered-list line
    whose text holds a line terminator (a carriage return, for one). *)
Lemma classify_none_iff (line : str) :
  classify line = None <->
  exists digits c r,
    RegExp.orderedPrefix line = Some (digits, c, r) /\
    existsb JS.isLineTerminator r = true.
Proof.
  split.
  - unfold classify.
    repeat match goal with
           | |- (if ?b then Some _ else _) = None -> _ => destruct b; [discriminate|]
           end.
    unfold RegExp.testAtStart, RegExp.matchAtStart,
      RegExp.orderedTestRe, RegExp.orderedCaptureRe.
    destruct (RegExp.orderedPrefix line) as [[[digits c] r]|];
      [|destruct (JS.truthy (JS.trim line)); discriminate].
    destruct (forallb (fun x => negb (JS.isLineTerminator x)) r) eqn:E; [discriminate|].
    intros _. exists digits, c, r. split; [reflexivity|].
    clear -E. induction r as [|x r IH]; [discriminate|]. simpl in *.
    destruct (JS.isLineTerminator x); [reflexivity | now apply IH].
  - intros (digits & c & r & Hp & Hr).
    pose proof (orderedPrefix_found _ _ _ _ Hp) as (Hl & Hne & Hd & _).
    destruct digits as [|d digits]; [congruence|].
    simpl in Hd. apply andb_true_iff in Hd as [Hd _].
    simpl in Hl. subst line. unfold classify.
    rewrite !(digit_first_not_marker d) by (assumption || (simpl; tauto)).
    cbn [orb].
    unfold RegExp.testAtStart, RegExp.matchAtStart,
      RegExp.orderedTestRe, RegExp.orderedCaptureRe. rewrite Hp.
    assert (E : forallb (fun x => negb (JS.isLineTerminator x)) r = false).
    { clear -Hr. induction r as [|x r IH]; [discriminate|]. simpl in *.
      destruct (JS.isLineTerminator x); [reflexivity | now apply IH]. }
    now rewrite E.
Qed.

(** C6.  A numbered-list line that ends in a carriage return passes
    the test of the numbered-list branch and fails its capture pattern,
    and nothing is pushed for it: of the two items of a message with
    CR LF line ends only the last one is rendered. *)
Theorem numbered_line_with_carriage_return_dropped :
  RegExp.testAtStart RegExp.orderedTestRe (lit "1. first" ++ [CR]) = true /\
  RegExp.matchAtStart RegExp.orderedCaptureRe (lit "1. first" ++ [CR]) = None /\
  lineStep [lit "1. first" ++ [CR]; lit "2. second"] 0 [] = Some (0, []) /\
  exists body,
    parseInlineMarkdown (lit "second") = Some body /\
    parseMarkdown (lit "1. first" ++ CR :: LF :: lit "2. second") =
      Some [listItemElement [Str (lit "2"); Str (lit ".")] body].
Proof.
  repeat split. eexists. split; reflexivity.
Qed.

(** ** The examples of the specification *)

Example plain_fast_path :
  hasMarkdown (lit "hello world") = false /\
  bubbleContent (lit "hello world") false =
    Some (plainMessage (lit "hello world") false).
Proof. split; reflexivity. Qed.

Example user_message_not_parsed :
  hasMarkdown (lit "# not a heading") = true /\
  bubbleContent (lit "# not a heading") true =
    Some (plainMessage (lit "# not a heading") true).
Proof. split; reflexivity. Qed.

Example heading_level_two :
  segmentBlocks (lit "## Title") = [Heading L2 (lit "Title")] /\
  parseMarkdown (lit "## Title") = Some [heading styles.h2 (lit "Title")].
Proof. split; reflexivity. Qed.

Example unterminated_fence :
  parseMarkdown (JS.join [fence; lit "let x = 1;"; lit "- x"]) =
    Some [codeBlockElement [lit "let x = 1;"; lit "- x"]].
Proof. reflexivity. Qed.

Example bare_url :
  parseInlineMarkdown (lit "visit https://example.com today") =
    Some (Text [] None
            [ gap (Text [] None [Text [styles.normalText] None [Str (lit "visit ")]]);
              Text [styles.link] (Some (lit "https://example.com"))
                   [Str (lit "https://example.com")];
              gap (Text [] None [Text [styles.normalText] None [Str (lit " today")]]) ]).
Proof. reflexivity. Qed.

Example numbered_list :
  segmentBlocks (JS.join [lit "1. first"; lit "2. second"]) =
    [ListItem (Some (lit "1")) (lit "first"); ListItem (Some (lit "2")) (lit "second")].
Proof. reflexivity. Qed.

(** * Further properties of the source *)

(** ** Text without markup *)

Lemma in_skipn_in {A} (x : A) (l : list A) j : In x (skipn j l) -> In x l.
Proof.
  intros H. rewrite <- (firstn_skipn j l). apply in_or_app. now right.
Qed.

Lemma searchFrom_none_intro re s : forall p,
  (forall j, re (skipn j s) = None) -> RegExp.searchFrom re s p = None.
Proof.
  induction s as [|c s IH]; intros p H; simpl.
  - pose proof (H 0) as H0. simpl in H0. now rewrite H0.
  - pose proof (H 0) as H0. simpl in H0. rewrite H0.
    apply IH. intros j. apply (H (S j)).
Qed.

Lemma exec_none re text li :
  (forall j, re (skipn j text) = None) -> RegExp.exec re text li = None.
Proof.
  intros H. unfold RegExp.exec. destruct (length text <? li); [reflexivity|].
  apply searchFrom_none_intro. intros j. rewrite skipn_skipn. apply H.
Qed.

Lemma matchesFrom_none re text fuel li :
  (forall j, re (skipn j text) = None) ->
  RegExp.matchesFrom (S fuel) re text li = Some [].
Proof. intros H. cbn [RegExp.matchesFrom]. now rewrite exec_none. Qed.

Lemma delimited_first d open close s :
  RegExp.delimited (d :: open) close s <> None -> exists r, s = d :: r.
Proof.
  unfold RegExp.delimited. destruct (JS.startsWith (d :: open) s) eqn:E; [|congruence].
  intros _. apply startsWith_prefix in E as [r ->]. now exists (open ++ r).
Qed.

Lemma delimited_absent d open close text :
  ~ In d text -> forall j, RegExp.delimited (d :: open) close (skipn j text) = None.
Proof.
  intros Hd j.
  destruct (RegExp.delimited (d :: open) close (skipn j text)) eqn:E; [|reflexivity].
  exfalso. apply Hd. destruct (delimited_first d open close (skipn j text)) as [r Hr];
    [congruence|].
  apply (in_skipn_in _ _ j). rewrite Hr. now left.
Qed.

Lemma scanPattern_none text p all :
  (forall j, regex p (skipn j text) = None) ->
  scanPattern text p all = Some all.
Proof.
  intros H. unfold scanPattern. rewrite whileExec_fold.
  now rewrite matchesFrom_none.
Qed.

Lemma scanPatterns_without_delimiters text :
  ~ In 42%N text -> ~ In 96%N text ->
  scanPatterns text patterns [] = Some [].
Proof.
  intros Ha Hb. unfold patterns. cbn [scanPatterns].
  rewrite scanPattern_none by (apply (delimited_absent 42%N); assumption).
  cbn [bind].
  rewrite scanPattern_none by (apply (delimited_absent 42%N); assumption).
  cbn [bind].
  rewrite scanPattern_none by (apply (delimited_absent 96%N); assumption).
  reflexivity.
Qed.

(** X1.  A text that holds no asterisk and no backtick is shown
    unchanged by [parseTextWithFormatting], as one plain span (the
    empty text as an element of its own). *)
Theorem text_without_delimiters_kept (text : str) :
  ~ In 42%N text -> ~ In 96%N text ->
  parseTextWithFormatting text =
    Some (match text with
          | [] => Text [styles.normalText] None [Str []]
          | _ :: _ => Text [] None [Text [styles.normalText] None [Str text]]
          end) /\
  option_map textOf (parseTextWithFormatting text) = Some text.
Proof.
  intros Ha Hb.
  assert (H : parseTextWithFormatting text =
              Some (match text with
                    | [] => Text [styles.normalText] None [Str []]
                    | _ :: _ => Text [] None [Text [styles.normalText] None [Str text]]
                    end)).
  { unfold parseTextWithFormatting.
    rewrite scanPatterns_without_delimiters by assumption.
    now destruct text. }
  split; [exact H|]. rewrite H.
  destruct text; simpl; [reflexivity | now rewrite !app_nil_r].
Qed.

Lemma text_without_delimiters_kept_witness :
  parseTextWithFormatting (lit "a_b [c] 1 < 2") =
    Some (Text [] None [Text [styles.normalText] None [Str (lit "a_b [c] 1 < 2")]]) /\
  option_map textOf (parseTextWithFormatting (lit "a_b [c] 1 < 2")) =
    Some (lit "a_b [c] 1 < 2").
Proof.
  apply (text_without_delimiters_kept (lit "a_b [c] 1 < 2"));
    simpl; intuition discriminate.
Defined.

(** ** What emphasis extraction shows *)

Lemma textOf_snoc (els : list node) (e : node) :
  flat_map textOf (els ++ [e]) = flat_map textOf els ++ textOf e.
Proof. rewrite flat_map_app. simpl. now rewrite app_nil_r. Qed.

Lemma textOf_plain_span (st : list styles.t) (p : option str) (t : str) :
  textOf (Text st p [Str t]) = t.
Proof. simpl. apply app_nil_r. Qed.

Lemma formatStep_shown text els cur e :
  flat_map textOf (fst (formatStep text (els, cur) e)) =
    flat_map textOf els ++
    gapText text cur (RegExp.index (fm_match e)) ++ RegExp.group 1 (fm_match e) /\
  snd (formatStep text (els, cur) e) = RegExp.nextIndex (fm_match e).
Proof.
  unfold formatStep, gapText. cbn [fst snd]. split; [|reflexivity].
  rewrite textOf_snoc, textOf_plain_span, app_assoc. f_equal.
  destruct (cur <? RegExp.index (fm_match e)); [|now rewrite app_nil_r].
  destruct (JS.substring text cur (RegExp.index (fm_match e))) as [|c t].
  - cbn. now rewrite app_nil_r.
  - cbn [JS.truthy isEmpty negb]. now rewrite textOf_snoc, textOf_plain_span.
Qed.

Lemma formatStep_text text (es : list formatMatch) : forall els cur,
  flat_map textOf (fst (fold_left (formatStep text) es (els, cur))) ++
  skipn (snd (fold_left (formatStep text) es (els, cur))) text =
  flat_map textOf els ++ stitch (RegExp.group 1) text cur (map fm_match es).
Proof.
  induction es as [|e es IH]; intros els cur; [reflexivity|].
  cbn [fold_left map stitch].
  destruct (formatStep_shown text els cur e) as [H1 H2].
  destruct (formatStep text (els, cur) e) as [els1 cur1]. cbn [fst snd] in H1, H2.
  rewrite IH, H1, H2, <- !app_assoc. reflexivity.
Qed.

Lemma formatElements_text text (all : list formatMatch) :
  flat_map textOf (formatElements text all) =
  stitch (RegExp.group 1) text 0 (map fm_match (sortBy fm_index all)).
Proof.
  unfold formatElements.
  pose proof (formatStep_text text (sortBy fm_index all) [] 0) as H.
  destruct (fold_left (formatStep text) (sortBy fm_index all) ([], 0))
    as [elements cur]. cbn [fst snd flat_map app] in H. rewrite <- H.
  destruct (Nat.ltb_spec cur (length text)) as [Hc|Hc].
  - unfold JS.substringFrom. destruct (skipn cur text) as [|c t].
    + cbn. now rewrite app_nil_r.
    + cbn [JS.truthy isEmpty negb]. now rewrite textOf_snoc, textOf_plain_span.
  - rewrite skipn_all2 by assumption. now rewrite app_nil_r.
Qed.

Lemma formatStep_length text (es : list formatMatch) : forall els cur,
  length els + length es <= length (fst (fold_left (formatStep text) es (els, cur))).
Proof.
  induction es as [|e es IH]; intros els cur; cbn [fold_left length fst]; [lia|].
  destruct (formatStep text (els, cur) e) as [els1 cur1] eqn:E.
  specialize (IH els1 cur1).
  assert (length els < length els1); [|lia].
  unfold formatStep in E. injection E as <- _. rewrite length_app. cbn [length].
  destruct (cur <? _); [|lia]. destruct (JS.truthy _); [|lia].
  rewrite length_app. lia.
Qed.

Lemma formatElements_nil text all :
  formatElements text all = [] -> text = [] /\ all = [].
Proof.
  unfold formatElements. intros H.
  pose proof (formatStep_length text (sortBy fm_index all) [] 0) as Hl.
  rewrite (Permutation_length (sortBy_perm fm_index all)) in Hl.
  destruct (fold_left (formatStep text) (sortBy fm_index all) ([], 0))
    as [elements cur] eqn:E. cbn [fst length] in Hl.
  assert (Hel : elements = []).
  { destruct (cur <? length text); [|assumption].
    destruct (JS.truthy _); [|assumption].
    now apply app_eq_nil in H as [_ H]. }
  subst elements. cbn [length] in Hl.
  assert (Hall : all = []) by (destruct all; [reflexivity | simpl in Hl; lia]).
  split; [|exact Hall]. subst all. cbn in E. injection E as <-.
  destruct text as [|c t]; [reflexivity | discriminate].
Qed.

(** The text shown by [parseTextWithFormatting] is the text stitched
    from the sorted matches, each match showing its first group. *)
Lemma parseTextWithFormatting_text text all :
  scanPatterns text patterns [] = Some all ->
  option_map textOf (parseTextWithFormatting text) =
  Some (stitch (RegExp.group 1) text 0 (map fm_match (sortBy fm_index all))).
Proof.
  intros Hs. unfold parseTextWithFormatting. rewrite Hs. cbn [bind].
  rewrite <- formatElements_text.
  destruct (formatElements text all) as [|e els] eqn:E.
  - apply formatElements_nil in E as [-> ->]. reflexivity.
  - cbn [length Nat.eqb option_map]. reflexivity.
Qed.

Lemma sortBy_sorted_id {A} (key : A -> nat) (l : list A) :
  StronglySorted (fun a b => key a <= key b) l -> sortBy key l = l.
Proof.
  induction 1 as [|x l Hs IH Hx]; [reflexivity|]. cbn [sortBy]. rewrite IH.
  destruct l as [|y l]; [reflexivity|]. cbn [insertBy].
  apply Forall_inv in Hx. apply Nat.leb_le in Hx. now rewrite Hx.
Qed.

Lemma gapText_firstn text cur next :
  cur <= next -> gapText text cur next = firstn (next - cur) (skipn cur text).
Proof.
  intros H. unfold gapText, JS.substring.
  destruct (Nat.ltb_spec cur next) as [Hlt|Hge].
  - now rewrite Nat.max_r, Nat.min_l by lia.
  - now replace (next - cur) with 0 by lia.
Qed.

Lemma stitch_whole text (ms : list RegExp.ExecArray) : forall cur,
  Forall (fun m => exists r, skipn (RegExp.index m) text = RegExp.whole m ++ r) ms ->
  Forall (fun m => cur <= RegExp.index m) ms ->
  StronglySorted (fun a b => RegExp.nextIndex a <= RegExp.index b) ms ->
  stitch RegExp.whole text cur ms = skipn cur text.
Proof.
  induction ms as [|m ms IH]; intros cur Hp Hc Hs; [reflexivity|].
  cbn [stitch]. inversion Hp as [|? ? [r Hr] Hp']; subst.
  inversion Hc as [|? ? Hm Hc']; subst. inversion Hs as [|? ? Hs' Hn]; subst.
  rewrite IH by assumption. rewrite gapText_firstn by assumption.
  unfold RegExp.nextIndex.
  rewrite Nat.add_comm, <- skipn_skipn, Hr, skipn_app, Nat.sub_diag, skipn_all.
  cbn [skipn app]. rewrite <- Hr.
  rewrite <- (firstn_skipn (RegExp.index m - cur) (skipn cur text)) at 2.
  rewrite skipn_skipn. now replace (RegExp.index m - cur + cur) with (RegExp.index m) by lia.
Qed.

Lemma matchesFrom_ordered re text fuel : forall li ms,
  RegExp.matchesFrom fuel re text li = Some ms ->
  StronglySorted (fun a b => RegExp.nextIndex a <= RegExp.index b) ms.
Proof.
  induction fuel as [|fuel IH]; intros li ms; simpl; [discriminate|].
  destruct (RegExp.exec re text li) as [m|]; [|intros [= <-]; constructor].
  destruct (RegExp.matchesFrom fuel re text (RegExp.nextIndex m)) as [ms'|] eqn:E;
    [|discriminate].
  intros [= <-]. constructor; [now apply (IH _ _ E)|].
  eapply Forall_impl; [|apply (matchesFrom_sound _ _ _ _ _ E)].
  intros a [[Ha _] _]. exact Ha.
Qed.

Lemma matchAt_prefix re text li m :
  consumes re -> matchAt re text li m ->
  exists r, skipn (RegExp.index m) text = RegExp.whole m ++ r.
Proof. intros Hc [_ Hm]. now apply Hc in Hm as [_ Hr]. Qed.

Lemma apart_sorted (ms : list RegExp.ExecArray) :
  Forall (fun m => RegExp.index m <= RegExp.nextIndex m) ms ->
  StronglySorted apart ms ->
  StronglySorted (fun a b => RegExp.index a <= RegExp.index b) ms.
Proof.
  intros Hi Hs. induction Hs as [|m ms Hs IH Hm]; [constructor|].
  inversion Hi as [|? ? Hle Hi']; subst.
  constructor; [now apply IH|].
  eapply Forall_impl; [|exact Hm]. unfold apart. intros a Ha. lia.
Qed.

Lemma entry_delimited text e :
  entryOf text e ->
  (exists r, skipn (RegExp.index (fm_match e)) text = RegExp.whole (fm_match e) ++ r) /\
  exists delim,
    In (delim, style (fm_pattern e)) delimiters /\
    RegExp.whole (fm_match e) = delim ++ RegExp.group 1 (fm_match e) ++ delim.
Proof.
  intros (Hp & _ & Hm). split.
  - eapply matchAt_prefix; [apply patterns_consume, Hp | exact Hm].
  - destruct (patterns_delimited _ Hp) as (delim & Hd & Hre).
    destruct Hm as [_ Hm]. rewrite Hre in Hm.
    apply delimited_found in Hm as (inner & r & Hg & Hw & _).
    exists delim. split; [assumption|]. unfold RegExp.group. now rewrite Hg.
Qed.

(** X2.  When the matches of the three emphasis patterns, taken in
    order of their index, do not overlap (each ends before the next
    starts), the spans tile the text: the text is the gaps and the
    matches in order, every match is its delimiter, its first group
    and its delimiter again, and the text shown is the same sequence
    with each match replaced by its first group. *)
Theorem emphasis_spans_tile (text : str) (all : list formatMatch) :
  scanPatterns text patterns [] = Some all ->
  StronglySorted apart (map fm_match (sortBy fm_index all)) ->
  stitch RegExp.whole text 0 (map fm_match (sortBy fm_index all)) = text /\
  option_map textOf (parseTextWithFormatting text) =
    Some (stitch (RegExp.group 1) text 0 (map fm_match (sortBy fm_index all))) /\
  Forall (fun e => exists delim,
              In (delim, style (fm_pattern e)) delimiters /\
              RegExp.whole (fm_match e) = delim ++ RegExp.group 1 (fm_match e) ++ delim)
         (sortBy fm_index all).
Proof.
  intros Hs Ha.
  assert (He : Forall (entryOf text) (sortBy fm_index all)).
  { apply scanPatterns_sound in Hs; [|apply incl_refl | constructor].
    eapply Permutation_Forall; [symmetry; apply sortBy_perm | exact Hs]. }
  repeat split.
  - rewrite stitch_whole; [reflexivity | | | exact Ha].
    + apply Forall_map. eapply Forall_impl; [|exact He].
      intros e H. now apply entry_delimited in H as [H _].
    + apply Forall_forall. intros; lia.
  - now apply parseTextWithFormatting_text.
  - eapply Forall_impl; [|exact He]. intros e H. now apply entry_delimited in H as [_ H].
Qed.

Lemma emphasis_spans_tile_witness :
  let all :=
    [ formatEntry {| regex := RegExp.italicRe; style := styles.italic |}
        {| RegExp.index := 6; RegExp.whole := lit "*c*"; RegExp.groups := [lit "c"] |};
      formatEntry {| regex := RegExp.codeRe; style := styles.inlineCode |}
        {| RegExp.index := 2; RegExp.whole := lit "`b`"; RegExp.groups := [lit "b"] |} ] in
  stitch RegExp.whole (lit "a `b` *c* d") 0 (map fm_match (sortBy fm_index all)) =
    lit "a `b` *c* d" /\
  option_map textOf (parseTextWithFormatting (lit "a `b` *c* d")) =
    Some (stitch (RegExp.group 1) (lit "a `b` *c* d") 0
            (map fm_match (sortBy fm_index all))) /\
  Forall (fun e => exists delim,
              In (delim, style (fm_pattern e)) delimiters /\
              RegExp.whole (fm_match e) = delim ++ RegExp.group 1 (fm_match e) ++ delim)
         (sortBy fm_index all).
Proof.
  cbv zeta. apply (emphasis_spans_tile (lit "a `b` *c* d")).
  - reflexivity.
  - unfold apart. repeat constructor.
Defined.

Lemma matches_index_sorted re text ms :
  RegExp.matches re text = Some ms ->
  StronglySorted (fun a b => RegExp.index a <= RegExp.index b) ms.
Proof.
  intros H. apply apart_sorted.
  - apply Forall_forall. intros m _. unfold RegExp.nextIndex. lia.
  - exact (matchesFrom_ordered _ _ _ _ _ H).
Qed.

Lemma sortBy_entries p ms :
  StronglySorted (fun a b => RegExp.index a <= RegExp.index b) ms ->
  sortBy fm_index (map (formatEntry p) ms) = map (formatEntry p) ms.
Proof.
  intros H. apply sortBy_sorted_id.
  induction H as [|m ms Hs IH Hm]; cbn [map]; constructor; [assumption|].
  apply Forall_map. exact Hm.
Qed.

(** X3.  In a text without asterisks the inline code spans tile the
    text: the text is the gaps and the backtick matches in order, each
    match is its first group between two backticks, and the text shown
    is the text with the backticks of every match removed. *)
Theorem code_spans_tile (text : str) :
  ~ In 42%N text ->
  exists ms,
    RegExp.matches RegExp.codeRe text = Some ms /\
    stitch RegExp.whole text 0 ms = text /\
    option_map textOf (parseTextWithFormatting text) =
      Some (stitch (RegExp.group 1) text 0 ms) /\
    Forall (fun m => RegExp.whole m = lit "`" ++ RegExp.group 1 m ++ lit "`") ms.
Proof.
  intros Ha.
  destruct (matches_total RegExp.codeRe text) as [ms Hms];
    [apply delimited_consumes; discriminate|].
  set (code := {| regex := RegExp.codeRe; style := styles.inlineCode |}).
  assert (Hs : scanPatterns text patterns [] = Some (map (formatEntry code) ms)).
  { unfold patterns. cbn [scanPatterns].
    rewrite scanPattern_none by (apply (delimited_absent 42%N); assumption).
    cbn [bind].
    rewrite scanPattern_none by (apply (delimited_absent 42%N); assumption).
    cbn [bind]. unfold scanPattern. rewrite whileExec_fold. cbn [regex].
    unfold RegExp.matches in Hms. rewrite Hms.
    now rewrite (fold_left_push (formatEntry code)). }
  assert (Hm : map fm_match (sortBy fm_index (map (formatEntry code) ms)) = ms).
  { rewrite sortBy_entries by exact (matches_index_sorted _ _ _ Hms).
    rewrite map_map. apply map_id. }
  pose proof (matches_sound _ _ _ Hms) as Hat.
  exists ms. repeat split.
  - exact Hms.
  - rewrite stitch_whole; [reflexivity | | |].
    + eapply Forall_impl; [|exact Hat]. intros m H.
      eapply matchAt_prefix; [|exact H]. apply delimited_consumes. discriminate.
    + apply Forall_forall. intros; lia.
    + exact (matchesFrom_ordered _ _ _ _ _ Hms).
  - rewrite (parseTextWithFormatting_text _ _ Hs). now rewrite Hm.
  - eapply Forall_impl; [|exact Hat]. intros m [_ H].
    apply delimited_found in H as (inner & r & Hg & Hw & _).
    unfold RegExp.group. now rewrite Hg.
Qed.

Lemma code_spans_tile_witness :
  exists ms,
    RegExp.matches RegExp.codeRe (lit "run `npm i` then `npm t`") = Some ms /\
    stitch RegExp.whole (lit "run `npm i` then `npm t`") 0 ms =
      lit "run `npm i` then `npm t`" /\
    option_map textOf (parseTextWithFormatting (lit "run `npm i` then `npm t`")) =
      Some (stitch (RegExp.group 1) (lit "run `npm i` then `npm t`") 0 ms) /\
    Forall (fun m => RegExp.whole m = lit "`" ++ RegExp.group 1 m ++ lit "`") ms.
Proof.
  apply (code_spans_tile (lit "run `npm i` then `npm t`")).
  simpl. intuition discriminate.
Defined.

(** ** The entries of [allLinks] *)

Lemma substring_prefix text a w r :
  skipn a text = w ++ r -> JS.substring text a (a + length w) = w.
Proof.
  intros H. unfold JS.substring.
  rewrite Nat.max_r, Nat.min_l by lia.
  replace (a + length w - a) with (length w) by lia.
  now rewrite H, firstn_app, Nat.sub_diag, firstn_all, app_nil_r.
Qed.

Lemma match_in_range re text li m :
  consumes re -> matchAt re text li m ->
  RegExp.index m < RegExp.nextIndex m <= length text.
Proof.
  intros Hc [[_ Hi] Hm]. destruct (Hc _ _ _ Hm) as [Hne [r Hr]].
  assert (Hl : length (skipn (RegExp.index m) text) = length (RegExp.whole m) + length r)
    by (rewrite Hr; apply length_app).
  rewrite length_skipn in Hl. unfold RegExp.nextIndex.
  destruct (RegExp.whole m); [congruence | simpl in *; lia].
Qed.

Lemma forallb_notChar_In x s :
  forallb (RegExp.notChar x) s = true -> ~ In x s.
Proof.
  intros H Hin. rewrite forallb_forall in H. apply H in Hin.
  unfold RegExp.notChar in Hin. now rewrite N.eqb_refl in Hin.
Qed.

Lemma markdownEntry_linkIn text m :
  matchAt RegExp.markdownLinkRe text 0 m -> linkIn text (markdownEntry m).
Proof.
  intros H. pose proof (match_in_range _ _ _ _ markdownLinkRe_consumes H) as Hr.
  destruct H as [_ H].
  pose proof (markdownLinkRe_found _ _ _ H) as (d & t & r & Hg & Hw & Hs & _ & _ & Hd & Ht).
  unfold linkIn, markdownEntry, RegExp.group, RegExp.nextIndex in *.
  cbn [link_start link_end link_text link_url link_type nth].
  rewrite Hg. cbn [nth]. split; [exact Hr|]. split.
  - transitivity (RegExp.whole m); [|exact Hw].
    now apply (substring_prefix _ _ _ r).
  - split; now apply forallb_notChar_In.
Qed.

Lemma urlChar_not_space c : RegExp.urlChar c = true -> negb (JS.isSpace c) = true.
Proof.
  unfold RegExp.urlChar. intros H. apply negb_true_iff in H.
  apply orb_false_iff in H as [H _]. now rewrite H.
Qed.

Lemma plainEntry_linkIn text u :
  matchAt RegExp.urlRe text 0 u -> linkIn text (plainEntry u).
Proof.
  intros H. pose proof (match_in_range _ _ _ _ urlRe_consumes H) as Hr.
  destruct H as [_ H].
  pose proof (urlRe_found _ _ _ H) as (pre & body & r & _ & Hw & Hs & _ & Hpre & Hb).
  unfold linkIn, plainEntry, RegExp.group, RegExp.nextIndex in *.
  cbn [link_start link_end link_text link_url link_type].
  split; [exact Hr|]. repeat split.
  - now apply (substring_prefix _ _ _ r).
  - rewrite Hw. destruct Hpre as [-> | ->]; [left | right];
      apply startsWith_prefix; now exists body.
  - rewrite Hw, forallb_app. apply andb_true_iff. split.
    + destruct Hpre as [-> | ->]; reflexivity.
    + rewrite forallb_forall in Hb. apply forallb_forall.
      intros c Hc. apply urlChar_not_space. now apply Hb.
Qed.

Lemma candidates_linkIn text mds urls :
  RegExp.matches RegExp.markdownLinkRe text = Some mds ->
  RegExp.matches RegExp.urlRe text = Some urls ->
  Forall (linkIn text) (candidates mds urls).
Proof.
  intros Hm Hu. unfold candidates. apply Forall_app. split.
  - apply Forall_map. eapply Forall_impl; [|exact (matches_sound _ _ _ Hm)].
    apply markdownEntry_linkIn.
  - apply Forall_map. apply Forall_forall. intros u Hin.
    apply filter_In in Hin as [Hin _].
    pose proof (matches_sound _ _ _ Hu) as Hs. rewrite Forall_forall in Hs.
    now apply plainEntry_linkIn, Hs.
Qed.

(** X4.  Every entry of [allLinks] is a non-empty range inside the
    text.  The text of a markdown entry's range is its display text in
    brackets followed by its target in parentheses, the display text
    has no closing bracket and the target no closing parenthesis.  The
    text of a bare URL's range is the URL itself, which is also its
    display text, starts with [http://] or [https://] and holds no
    white space. *)
Theorem link_entries_in_text (text : str) :
  exists all, findLinks text = Some all /\ Forall (linkIn text) all.
Proof.
  destruct (findLinks_candidates text) as (mds & urls & Hm & Hu & ->).
  eexists. split; [reflexivity|].
  eapply Permutation_Forall; [symmetry; apply sortBy_perm|].
  now apply candidates_linkIn.
Qed.

Lemma StronglySorted_app {A} (R : A -> A -> Prop) (l1 l2 : list A) :
  StronglySorted R l1 -> StronglySorted R l2 ->
  (forall a b, In a l1 -> In b l2 -> R a b) ->
  StronglySorted R (l1 ++ l2).
Proof.
  intros H1 H2 H. induction H1 as [|x l1 Hs IH Hx]; [exact H2|].
  cbn [app]. constructor.
  - apply IH. intros a b Ha Hb. apply H; [now right | assumption].
  - apply Forall_app. split; [assumption|].
    apply Forall_forall. intros b Hb. apply H; [now left | assumption].
Qed.

Lemma StronglySorted_weaken {A} (R S : A -> A -> Prop) (l : list A) :
  (forall a b, R a b -> S a b) -> StronglySorted R l -> StronglySorted S l.
Proof.
  intros H. induction 1 as [|x l Hs IH Hx]; constructor; [assumption|].
  eapply Forall_impl; [|exact Hx]. intros a. apply H.
Qed.

Lemma StronglySorted_map {A B} (R : B -> B -> Prop) (f : A -> B) (l : list A) :
  StronglySorted (fun a b => R (f a) (f b)) l -> StronglySorted R (map f l).
Proof.
  induction 1 as [|x l Hs IH Hx]; cbn [map]; constructor; [assumption|].
  now apply Forall_map.
Qed.

Lemma StronglySorted_filter {A} (R : A -> A -> Prop) (f : A -> bool) (l : list A) :
  StronglySorted R l -> StronglySorted R (filter f l).
Proof.
  induction 1 as [|x l Hs IH Hx]; cbn [filter]; [constructor|].
  destruct (f x); [|assumption]. constructor; [assumption|].
  apply Forall_forall. intros b Hb. apply filter_In in Hb as [Hb _].
  rewrite Forall_forall in Hx. now apply Hx.
Qed.

Lemma insertBy_follows x l :
  nonEmptyRange x -> Forall nonEmptyRange l ->
  Forall (disjoint x) l ->
  StronglySorted follows l ->
  StronglySorted follows (insertBy link_start x l).
Proof.
  unfold nonEmptyRange, disjoint, follows. intros Hx Hn Hd Hs.
  induction Hs as [|y l Hs IH Hy]; cbn [insertBy]; [repeat constructor|].
  inversion Hn as [|? ? Hny Hn']; subst. inversion Hd as [|? ? Hdy Hd']; subst.
  destruct (Nat.leb_spec (link_start x) (link_start y)) as [Hle|Hgt].
  - constructor; [now constructor|]. constructor; [lia|].
    rewrite Forall_forall in Hy, Hd', Hn'. apply Forall_forall. intros z Hz.
    specialize (Hy z Hz). specialize (Hd' z Hz). specialize (Hn' z Hz). lia.
  - constructor; [now apply IH|].
    eapply Permutation_Forall; [symmetry; apply insertBy_perm|].
    constructor; [lia | assumption].
Qed.

Lemma sortBy_follows l :
  Forall nonEmptyRange l -> StronglySorted disjoint l ->
  StronglySorted follows (sortBy link_start l).
Proof.
  intros Hn Hs. induction Hs as [|x l Hs IH Hx]; cbn [sortBy]; [constructor|].
  inversion Hn as [|? ? Hnx Hn']; subst.
  apply insertBy_follows; try assumption.
  - eapply Permutation_Forall; [symmetry; apply sortBy_perm | assumption].
  - eapply Permutation_Forall; [symmetry; apply sortBy_perm | assumption].
  - now apply IH.
Qed.

Lemma skipn_inside {A} (w r : list A) j :
  j < length w -> exists c t, skipn j (w ++ r) = c :: t /\ In c w.
Proof.
  revert j; induction w as [|x w IH]; intros j Hj; [simpl in Hj; lia|].
  destruct j as [|j].
  - exists x, (w ++ r). split; [reflexivity | now left].
  - destruct (IH j) as (c & t & Hs & Hin); [simpl in Hj; lia|].
    exists c, t. split; [exact Hs | now right].
Qed.

Lemma url_without_bracket s w gs :
  RegExp.urlRe s = Some (w, gs) -> ~ In 91%N w.
Proof.
  intros H. apply urlRe_found in H as (pre & body & r & _ & -> & _ & _ & Hpre & Hb).
  intros Hin. apply in_app_or in Hin as [Hin | Hin].
  - destruct Hpre as [-> | ->]; simpl in Hin; intuition discriminate.
  - rewrite forallb_forall in Hb. apply Hb in Hin. discriminate.
Qed.

(** A bare URL that starts before a markdown link ends before it: the
    link starts with an opening bracket, which no URL holds. *)
Lemma url_before_markdown_link text u k :
  matchAt RegExp.urlRe text 0 u ->
  matchAt RegExp.markdownLinkRe text 0 k ->
  RegExp.index u < RegExp.index k ->
  RegExp.nextIndex u <= RegExp.index k.
Proof.
  intros [_ Hu] [_ Hk] Hlt.
  pose proof (url_without_bracket _ _ _ Hu) as Hnb.
  destruct (urlRe_consumes _ _ _ Hu) as [_ [r Hr]].
  apply markdownLinkRe_found in Hk as (d & t & r' & _ & Hw & Hs & _).
  destruct (Nat.le_gt_cases (RegExp.nextIndex u) (RegExp.index k)) as [|Hin];
    [assumption|]. exfalso. unfold RegExp.nextIndex in Hin.
  destruct (skipn_inside (RegExp.whole u) r (RegExp.index k - RegExp.index u))
    as (c & t' & Hsk & Hc); [lia|].
  rewrite <- Hr, skipn_skipn in Hsk.
  replace (RegExp.index k - RegExp.index u + RegExp.index u)
    with (RegExp.index k) in Hsk by lia.
  rewrite Hs, Hw in Hsk. cbn in Hsk. injection Hsk as <- _. contradiction.
Qed.

Lemma candidates_disjoint text mds urls :
  RegExp.matches RegExp.markdownLinkRe text = Some mds ->
  RegExp.matches RegExp.urlRe text = Some urls ->
  StronglySorted disjoint (candidates mds urls).
Proof.
  intros Hm Hu. unfold candidates.
  pose proof (matches_sound _ _ _ Hm) as Hms.
  pose proof (matches_sound _ _ _ Hu) as Hus.
  rewrite Forall_forall in Hms, Hus.
  apply StronglySorted_app.
  - apply StronglySorted_map.
    eapply StronglySorted_weaken; [|exact (matchesFrom_ordered _ _ _ _ _ Hm)].
    intros a b H. left. exact H.
  - apply StronglySorted_map, StronglySorted_filter.
    eapply StronglySorted_weaken; [|exact (matchesFrom_ordered _ _ _ _ _ Hu)].
    intros a b H. left. exact H.
  - intros a b Ha Hb.
    apply in_map_iff in Ha as (k & <- & Hk).
    apply in_map_iff in Hb as (u & <- & Hu').
    apply filter_In in Hu' as [Hu' Hout]. apply negb_true_iff in Hout.
    unfold disjoint, follows, markdownEntry, plainEntry, RegExp.group.
    cbn [link_start link_end].
    destruct (Nat.lt_ge_cases (RegExp.index u) (RegExp.index k)) as [Hlt|Hge].
    + right. now apply (url_before_markdown_link text); [apply Hus | apply Hms |].
    + left.
      destruct (Nat.le_gt_cases (RegExp.index k + length (RegExp.whole k))
                  (RegExp.index u)) as [|Hin]; [assumption|].
      exfalso. assert (E : startsInside mds u = true); [|congruence].
      apply startsInside_iff. exists k. split; [assumption | lia].
Qed.

(** X5.  The entries of [allLinks] never overlap: in the sorted array
    every entry ends at or before the start of each later entry. *)
Theorem link_entries_do_not_overlap (text : str) :
  exists all, findLinks text = Some all /\ StronglySorted follows all.
Proof.
  destruct (findLinks_candidates text) as (mds & urls & Hm & Hu & ->).
  eexists. split; [reflexivity|].
  apply sortBy_follows.
  - eapply Forall_impl; [|exact (candidates_linkIn _ _ _ Hm Hu)].
    intros l [H _]. unfold nonEmptyRange. lia.
  - exact (candidates_disjoint _ _ _ Hm Hu).
Qed.

(** ** What inline resolution shows *)

Lemma in_substring (c : char) text a b : In c (JS.substring text a b) -> In c text.
Proof.
  unfold JS.substring. intros H. apply (in_skipn_in _ _ (Nat.min a b)).
  rewrite <- (firstn_skipn (Nat.max a b - Nat.min a b)). apply in_or_app. now left.
Qed.

Lemma format_without_delimiters (text : str) :
  ~ In 42%N text -> ~ In 96%N text -> text <> [] ->
  parseTextWithFormatting text =
    Some (Text [] None [Text [styles.normalText] None [Str text]]).
Proof.
  intros Ha Hb Hne. unfold parseTextWithFormatting.
  rewrite scanPatterns_without_delimiters by assumption.
  destruct text; [congruence | reflexivity].
Qed.

Lemma linkStep_shown (text : str) els cur l :
  ~ In 42%N text -> ~ In 96%N text ->
  exists els',
    linkStep text (Some (els, cur)) l = Some (els', link_end l) /\
    flat_map textOf els' =
      flat_map textOf els ++ gapText text cur (link_start l) ++ link_text l.
Proof.
  intros Ha Hb. unfold linkStep, gapText. cbn [bind].
  destruct (cur <? link_start l).
  - destruct (JS.substring text cur (link_start l)) as [|c t] eqn:E.
    + cbn [JS.truthy isEmpty negb bind]. eexists. split; [reflexivity|].
      now rewrite textOf_snoc, textOf_plain_span.
    + cbn [JS.truthy isEmpty negb].
      assert (Hin : forall x, In x (c :: t) -> In x text).
      { intros x Hx. apply (in_substring x text cur (link_start l)).
        exact (eq_ind_r (fun s => In x s) Hx E). }
      rewrite format_without_delimiters;
        [| intros Hi; apply Ha, Hin, Hi | intros Hi; apply Hb, Hin, Hi | discriminate].
      cbn [bind]. eexists. split; [reflexivity|].
      rewrite !textOf_snoc, textOf_plain_span. unfold gap. cbn [textOf flat_map].
      now rewrite !app_nil_r, <- app_assoc.
  - cbn [bind]. eexists. split; [reflexivity|].
    now rewrite textOf_snoc, textOf_plain_span.
Qed.

Lemma linkStep_text (text : str) (ls : list linkEntry) :
  ~ In 42%N text -> ~ In 96%N text ->
  forall els cur, exists els' cur',
    fold_left (linkStep text) ls (Some (els, cur)) = Some (els', cur') /\
    flat_map textOf els' ++ skipn cur' text =
      flat_map textOf els ++ stitchLinks link_text text cur ls.
Proof.
  intros Ha Hb. induction ls as [|l ls IH]; intros els cur.
  - exists els, cur. now split.
  - cbn [fold_left stitchLinks].
    destruct (linkStep_shown text els cur l Ha Hb) as (els1 & -> & H1).
    destruct (IH els1 (link_end l)) as (els' & cur' & -> & H2).
    exists els', cur'. split; [reflexivity|].
    now rewrite H2, H1, <- !app_assoc.
Qed.

Lemma test_false_matches re text :
  RegExp.test re text = false -> RegExp.matches re text = Some [].
Proof.
  unfold RegExp.test, RegExp.matches. cbn [RegExp.matchesFrom].
  now destruct (RegExp.exec re text 0).
Qed.

Lemma test_true_matches re text :
  RegExp.test re text = true -> RegExp.matches re text <> Some [].
Proof.
  unfold RegExp.test, RegExp.matches. cbn [RegExp.matchesFrom].
  destruct (RegExp.exec re text 0); [|discriminate]. intros _.
  now destruct (RegExp.matchesFrom _ _ _ _).
Qed.

Lemma stitchLinks_range text (ls : list linkEntry) : forall cur,
  Forall (fun l => link_start l <= link_end l) ls ->
  Forall (fun l => cur <= link_start l) ls ->
  StronglySorted follows ls ->
  stitchLinks (fun l => JS.substring text (link_start l) (link_end l)) text cur ls =
  skipn cur text.
Proof.
  induction ls as [|l ls IH]; intros cur Hr Hc Hs; [reflexivity|].
  cbn [stitchLinks]. inversion Hr as [|? ? Hl Hr']; subst.
  inversion Hc as [|? ? Hcl Hc']; subst. inversion Hs as [|? ? Hs' Hf]; subst.
  rewrite IH by assumption. rewrite gapText_firstn by assumption.
  unfold JS.substring. rewrite Nat.max_r, Nat.min_l by lia.
  assert (H1 : skipn cur text =
               firstn (link_start l - cur) (skipn cur text) ++ skipn (link_start l) text).
  { rewrite <- (firstn_skipn (link_start l - cur) (skipn cur text)) at 1.
    rewrite skipn_skipn.
    now replace (link_start l - cur + cur) with (link_start l) by lia. }
  assert (H2 : skipn (link_start l) text =
               firstn (link_end l - link_start l) (skipn (link_start l) text) ++
               skipn (link_end l) text).
  { rewrite <- (firstn_skipn (link_end l - link_start l) (skipn (link_start l) text)) at 1.
    rewrite skipn_skipn.
    now replace (link_end l - link_start l + link_start l) with (link_end l) by lia. }
  symmetry. etransitivity; [exact H1|]. f_equal. exact H2.
Qed.

Lemma stitchLinks_ext (f g : linkEntry -> str) text (ls : list linkEntry) : forall cur,
  Forall (fun l => f l = g l) ls ->
  stitchLinks f text cur ls = stitchLinks g text cur ls.
Proof.
  induction ls as [|l ls IH]; intros cur H; [reflexivity|].
  inversion H as [|? ? Hl H']; subst. cbn [stitchLinks]. now rewrite Hl, IH.
Qed.

Lemma inline_remaining (text : str) els cur :
  ~ In 42%N text -> ~ In 96%N text ->
  exists els',
    (if cur <? length text then
       if JS.truthy (JS.substringFrom text cur) then
         f <- parseTextWithFormatting (JS.substringFrom text cur) ;;
         Some (els ++ [gap f])
       else Some els
     else Some els) = Some els' /\
    flat_map textOf els' = flat_map textOf els ++ skipn cur text.
Proof.
  intros Ha Hb. cbv zeta. unfold JS.substringFrom.
  destruct (Nat.ltb_spec cur (length text)) as [Hc|Hc].
  - destruct (skipn cur text) as [|c t] eqn:E.
    + exists els. split; [reflexivity | now rewrite app_nil_r].
    + cbn [JS.truthy isEmpty negb].
      assert (Hin : forall x, In x (c :: t) -> In x text).
      { intros x Hx. apply (in_skipn_in x text cur).
        exact (eq_ind_r (fun l => In x l) Hx E). }
      rewrite format_without_delimiters;
        [| intros Hi; apply Ha, Hin, Hi | intros Hi; apply Hb, Hin, Hi | discriminate].
      cbn [bind]. eexists. split; [reflexivity|].
      rewrite textOf_snoc. unfold gap. cbn [textOf flat_map].
      now rewrite !app_nil_r.
  - exists els. split; [reflexivity|].
    rewrite skipn_all2 by assumption. now rewrite app_nil_r.
Qed.

Lemma inline_shown (text : str) :
  ~ In 42%N text -> ~ In 96%N text ->
  exists all,
    findLinks text = Some all /\
    option_map textOf (parseInlineMarkdown text) =
      Some (stitchLinks link_text text 0 all).
Proof.
  intros Ha Hb. destruct (findLinks_candidates text) as (mds & urls & Hm & Hu & Hf).
  eexists. split; [exact Hf|].
  assert (Hlinks :
    option_map textOf
      (allLinks <- findLinks text ;;
       s <- fold_left (linkStep text) allLinks (Some ([], 0)) ;;
       let (elements, lastIndex) := s in
       elements' <-
         (if lastIndex <? length text then
            let remainingText := JS.substringFrom text lastIndex in
            if JS.truthy remainingText then
              f <- parseTextWithFormatting remainingText ;;
              Some (elements ++ [gap f])
            else Some elements
          else Some elements) ;;
       Some (Text [] None elements')) =
    Some (stitchLinks link_text text 0 (sortBy link_start (candidates mds urls)))).
  { rewrite Hf. cbn [bind].
    destruct (linkStep_text text (sortBy link_start (candidates mds urls)) Ha Hb [] 0)
      as (els & cur & -> & H). cbn [bind].
    destruct (inline_remaining text els cur Ha Hb) as (els' & -> & H').
    cbn [bind option_map textOf]. rewrite H', H. reflexivity. }
  unfold parseInlineMarkdown.
  destruct (RegExp.test RegExp.markdownLinkRe text) eqn:Em;
    destruct (RegExp.test RegExp.urlRe text) eqn:Eu; cbn [negb andb];
    try exact Hlinks.
  apply test_false_matches in Em, Eu.
  rewrite Em in Hm. rewrite Eu in Hu. injection Hm as <-. injection Hu as <-.
  cbn [candidates map filter app sortBy stitchLinks skipn].
  destruct text as [|c t]; [reflexivity|].
  rewrite format_without_delimiters by (assumption || discriminate).
  cbn. now rewrite !app_nil_r.
Qed.

Lemma findLinks_facts (text : str) :
  exists all,
    findLinks text = Some all /\
    Forall (linkIn text) all /\
    StronglySorted follows all.
Proof.
  destruct (findLinks_candidates text) as (mds & urls & Hm & Hu & ->).
  pose proof (candidates_linkIn _ _ _ Hm Hu) as Hin.
  eexists. split; [reflexivity|]. split.
  - eapply Permutation_Forall; [symmetry; apply sortBy_perm | exact Hin].
  - apply sortBy_follows.
    + eapply Forall_impl; [|exact Hin]. intros l [H _]. unfold nonEmptyRange. lia.
    + exact (candidates_disjoint _ _ _ Hm Hu).
Qed.

Lemma links_tile (text : str) all :
  Forall (linkIn text) all -> StronglySorted follows all ->
  stitchLinks (fun l => JS.substring text (link_start l) (link_end l)) text 0 all = text.
Proof.
  intros Hin Hs. rewrite stitchLinks_range; [reflexivity | | | exact Hs].
  - eapply Forall_impl; [|exact Hin]. intros l [H _]. lia.
  - apply Forall_forall. intros; lia.
Qed.

(** X6.  In a text without asterisks and backticks the links and the
    gaps between them tile the text, and inline resolution shows the
    gaps as they are and each link by its display text: a markdown
    link is replaced by the text between its brackets, the rest of the
    text is kept. *)
Theorem inline_links_tile (text : str) :
  ~ In 42%N text -> ~ In 96%N text ->
  exists all,
    findLinks text = Some all /\
    stitchLinks (fun l => JS.substring text (link_start l) (link_end l)) text 0 all
      = text /\
    option_map textOf (parseInlineMarkdown text) =
      Some (stitchLinks link_text text 0 all).
Proof.
  intros Ha Hb.
  destruct (findLinks_facts text) as (all & Hf & Hin & Hs).
  destruct (inline_shown text Ha Hb) as (all' & Hf' & Ht).
  rewrite Hf in Hf'. injection Hf' as <-.
  exists all. repeat split; try assumption. now apply links_tile.
Qed.

Lemma inline_links_tile_witness :
  exists all,
    findLinks (lit "see [here](https://a.com) or https://b.org now") = Some all /\
    stitchLinks (fun l => JS.substring
                            (lit "see [here](https://a.com) or https://b.org now")
                            (link_start l) (link_end l))
      (lit "see [here](https://a.com) or https://b.org now") 0 all
      = lit "see [here](https://a.com) or https://b.org now" /\
    option_map textOf
      (parseInlineMarkdown (lit "see [here](https://a.com) or https://b.org now")) =
      Some (stitchLinks link_text
              (lit "see [here](https://a.com) or https://b.org now") 0 all).
Proof.
  apply (inline_links_tile (lit "see [here](https://a.com) or https://b.org now"));
    simpl; intuition discriminate.
Defined.

(** X7.  A text without asterisks, backticks and opening brackets is
    shown unchanged by inline resolution: its bare URLs become links
    whose text is the URL, and nothing is added or lost. *)
Theorem text_with_bare_urls_kept (text : str) :
  ~ In 42%N text -> ~ In 96%N text -> ~ In 91%N text ->
  option_map textOf (parseInlineMarkdown text) = Some text /\
  exists all, findLinks text = Some all /\
              Forall (fun l => link_type l = plain) all.
Proof.
  intros Ha Hb Hc.
  destruct (findLinks_facts text) as (all & Hf & Hin & Hs).
  destruct (inline_shown text Ha Hb) as (all' & Hf' & Ht).
  rewrite Hf in Hf'. injection Hf' as <-.
  assert (Hp : Forall (fun l => link_type l = plain) all).
  { eapply Forall_impl; [|exact Hin]. intros l [_ H].
    destruct (link_type l); [|reflexivity]. exfalso. destruct H as [H _].
    apply Hc. apply (in_substring _ _ (link_start l) (link_end l)).
    rewrite H. now left. }
  split; [|now exists all]. rewrite Ht. f_equal.
  rewrite <- (links_tile text all Hin Hs) at 2.
  apply stitchLinks_ext. rewrite Forall_forall in Hin, Hp. apply Forall_forall.
  intros l Hl. destruct (Hin l Hl) as [_ H]. rewrite (Hp l Hl) in H.
  destruct H as (H1 & H2 & _). now rewrite H1, H2.
Qed.

Lemma text_with_bare_urls_kept_witness :
  option_map textOf (parseInlineMarkdown (lit "visit https://example.com today")) =
    Some (lit "visit https://example.com today") /\
  exists all, findLinks (lit "visit https://example.com today") = Some all /\
              Forall (fun l => link_type l = plain) all.
Proof.
  apply (text_with_bare_urls_kept (lit "visit https://example.com today"));
    simpl; intuition discriminate.
Defined.

(** ** Lines *)

Lemma split_head (s : str) :
  exists l ls b, JS.split s = l :: ls /\ s = l ++ b /\ ~ In LF l.
Proof.
  induction s as [|c s (l & ls & b & Hs & Hb & Hl)].
  - exists [], [], []. repeat split. intros [].
  - cbn [JS.split]. destruct (N.eqb_spec c LF) as [->|Hc].
    + exists [], (JS.split s), (LF :: s). repeat split. intros [].
    + rewrite Hs. exists (c :: l), ls, b. repeat split.
      * now rewrite Hb at 1.
      * intros [H | H]; [congruence | contradiction].
Qed.

Lemma join_cons (l l' : str) (ls : list str) :
  JS.join (l :: l' :: ls) = l ++ LF :: JS.join (l' :: ls).
Proof. reflexivity. Qed.

Lemma join_split (s : str) : JS.join (JS.split s) = s.
Proof.
  induction s as [|c s IH]; [reflexivity|]. cbn [JS.split].
  destruct (split_head s) as (l & ls & b & Hs & _). rewrite Hs in *.
  destruct (N.eqb_spec c LF) as [->|Hc].
  - rewrite join_cons, IH. reflexivity.
  - destruct ls as [|l' ls].
    + cbn [JS.join] in *. now rewrite IH.
    + rewrite join_cons in *. now rewrite <- IH.
Qed.

Lemma split_line (l : str) (r : str) :
  ~ In LF l -> JS.split (l ++ LF :: r) = l :: JS.split r.
Proof.
  induction l as [|c l IH]; intros Hl; cbn [app JS.split].
  - now rewrite N.eqb_refl.
  - destruct (N.eqb_spec c LF) as [->|Hc]; [exfalso; apply Hl; now left|].
    rewrite IH; [reflexivity|]. intros H. apply Hl. now right.
Qed.

Lemma split_single (l : str) : ~ In LF l -> JS.split l = [l].
Proof.
  induction l as [|c l IH]; intros Hl; cbn [JS.split]; [reflexivity|].
  destruct (N.eqb_spec c LF) as [->|Hc]; [exfalso; apply Hl; now left|].
  rewrite IH; [reflexivity|]. intros H. apply Hl. now right.
Qed.

Lemma split_join (ls : list str) :
  ls <> [] -> Forall (fun l => ~ In LF l) ls -> JS.split (JS.join ls) = ls.
Proof.
  intros Hne H. induction H as [|l ls Hl Hls IH]; [now destruct Hne|].
  destruct ls as [|l' ls].
  - now apply split_single.
  - rewrite join_cons, split_line by assumption. f_equal. apply IH. discriminate.
Qed.

Lemma split_app_line (m1 m2 : str) :
  JS.split (m1 ++ LF :: m2) = JS.split m1 ++ JS.split m2.
Proof.
  induction m1 as [|c m1 IH]; cbn [app JS.split].
  - now rewrite N.eqb_refl.
  - rewrite IH. destruct (N.eqb c LF); [reflexivity|].
    destruct (split_head m1) as (l & ls & b & -> & _). reflexivity.
Qed.

Lemma split_lines_in (s : str) (line : str) :
  In line (JS.split s) -> ~ In LF line /\ exists a b, s = a ++ line ++ b.
Proof.
  revert line; induction s as [|c s IH]; intros line; cbn [JS.split].
  - intros [<- | []]. split; [intros [] | now exists [], []].
  - destruct (split_head s) as (l & ls & b & Hs & Hb & Hl).
    destruct (N.eqb_spec c LF) as [->|Hc].
    + intros [<- | H].
      * split; [intros [] | now exists [], (LF :: s)].
      * destruct (IH _ H) as [Hn (a & b' & E)]. split; [assumption|].
        exists (LF :: a), b'. now rewrite E at 1.
    + rewrite Hs in *. intros [<- | H].
      * split; [intros [E | E]; [congruence | contradiction]|].
        exists [], b. now rewrite Hb at 1.
      * destruct (IH line (or_intror H)) as [Hn (a & b' & E)]. split; [assumption|].
        exists (c :: a), b'. now rewrite E at 1.
Qed.

Lemma line_char_in (s line : str) (c : char) :
  In line (JS.split s) -> In c line -> In c s.
Proof.
  intros H Hc. apply split_lines_in in H as [_ (a & b & ->)].
  apply in_or_app. right. apply in_or_app. now left.
Qed.

Lemma line_prefix_in (s line p : str) :
  In line (JS.split s) -> JS.startsWith p line = true -> JS.includes p s = true.
Proof.
  intros H Hp. apply split_lines_in in H as [_ (a & b & ->)].
  apply startsWith_prefix in Hp as [r ->]. apply includes_infix.
  exists a, (r ++ b). now rewrite <- !app_assoc.
Qed.

(** ** Blocks *)

Lemma renderBlocks_app (a b : list block) :
  renderBlocks (a ++ b) =
  (ea <- renderBlocks a ;; eb <- renderBlocks b ;; Some (ea ++ eb)).
Proof.
  induction a as [|x a IH]; cbn [app renderBlocks bind].
  - now destruct (renderBlocks b).
  - destruct (renderBlock x) as [e|]; cbn [bind]; [|reflexivity]. rewrite IH.
    destruct (renderBlocks a) as [ea|]; cbn [bind]; [|reflexivity].
    now destruct (renderBlocks b).
Qed.

Lemma renderBlocks_length (bs : list block) : forall es,
  renderBlocks bs = Some es -> length es = length bs.
Proof.
  induction bs as [|b bs IH]; intros es; cbn [renderBlocks].
  - now intros [= <-].
  - destruct (renderBlock b) as [e|]; cbn [bind]; [|discriminate].
    destruct (renderBlocks bs) as [es'|]; cbn [bind]; [|discriminate].
    intros [= <-]. cbn [length]. f_equal. now apply IH.
Qed.

Lemma segment_app (l1 l2 : list str) :
  Forall (fun l => opensCode l = false) l1 ->
  segment None (l1 ++ l2) = segment None l1 ++ segment None l2.
Proof.
  induction 1 as [|l l1 Hl H1 IH]; [reflexivity|].
  cbn [app segment]. rewrite Hl, IH. now destruct (classify l).
Qed.

Lemma segment_length (lines : list str) :
  Forall (fun l => opensCode l = false /\ classify l <> None) lines ->
  length (segment None lines) = length lines.
Proof.
  induction 1 as [|l lines [Ho Hc] H IH]; [reflexivity|].
  cbn [segment]. rewrite Ho. destruct (classify l); [|congruence].
  cbn [length]. now rewrite IH.
Qed.

Lemma no_fence_lines (message : str) :
  JS.includes fence message = false ->
  Forall (fun l => opensCode l = false) (JS.split message).
Proof.
  intros H. apply Forall_forall. intros l Hl.
  destruct (opensCode l) eqn:E; [|reflexivity].
  apply opensCode_fence in E. rewrite (line_prefix_in _ _ _ Hl E) in H. discriminate.
Qed.

(** X8.  The blocks of two messages joined by a line feed are the
    blocks of the first followed by the blocks of the second, when the
    first holds no run of three backticks. *)
Theorem parseMarkdown_of_joined_messages (m1 m2 : str) :
  JS.includes fence m1 = false ->
  parseMarkdown (m1 ++ LF :: m2) =
  (es1 <- parseMarkdown m1 ;; es2 <- parseMarkdown m2 ;; Some (es1 ++ es2)).
Proof.
  intros H. rewrite !parseMarkdown_segments. unfold segmentBlocks.
  rewrite split_app_line, segment_app by now apply no_fence_lines.
  apply renderBlocks_app.
Qed.

Lemma parseMarkdown_of_joined_messages_witness :
  parseMarkdown (lit "# Title" ++ LF :: lit "- item") =
  (es1 <- parseMarkdown (lit "# Title") ;;
   es2 <- parseMarkdown (lit "- item") ;; Some (es1 ++ es2)).
Proof.
  apply (parseMarkdown_of_joined_messages (lit "# Title") (lit "- item")).
  reflexivity.
Defined.

(** X9.  The lines between an opening fence line and a closing fence,
    or the end of the message, are shown as they are, joined by line
    feeds, whatever markup they hold, provided none of them starts
    with three backticks.  The text after the backticks on the opening
    line is not shown. *)
Theorem fenced_code_verbatim (opener : str) (body : list str) :
  JS.startsWith fence opener = true ->
  ~ In LF opener ->
  Forall (fun l => ~ In LF l) body ->
  forallb (fun l => negb (JS.startsWith fence l)) body = true ->
  parseMarkdown (JS.join (opener :: body ++ [fence])) = Some [codeBlockElement body] /\
  parseMarkdown (JS.join (opener :: body)) = Some [codeBlockElement body] /\
  textOf (codeBlockElement body) = JS.join body.
Proof.
  intros Ho Hno Hnb Hb.
  assert (Hf : ~ In LF fence) by (simpl; intuition discriminate).
  repeat split.
  - rewrite parseMarkdown_segments. unfold segmentBlocks.
    rewrite split_join; [|discriminate|].
    + cbn [segment]. rewrite (fence_line _ Ho).
      rewrite segment_code by (assumption || reflexivity). reflexivity.
    + constructor; [assumption|]. apply Forall_app. split; [assumption|].
      now constructor.
  - rewrite parseMarkdown_segments. unfold segmentBlocks.
    rewrite split_join; [|discriminate | now constructor].
    cbn [segment]. rewrite (fence_line _ Ho).
    rewrite <- (app_nil_r body) at 1.
    rewrite segment_code by (assumption || exact I). reflexivity.
  - simpl. now rewrite !app_nil_r.
Qed.

Lemma fenced_code_verbatim_witness :
  parseMarkdown (JS.join (lit "```js" :: [lit "# no heading"; lit "**x**"] ++ [fence])) =
    Some [codeBlockElement [lit "# no heading"; lit "**x**"]] /\
  parseMarkdown (JS.join (lit "```js" :: [lit "# no heading"; lit "**x**"])) =
    Some [codeBlockElement [lit "# no heading"; lit "**x**"]] /\
  textOf (codeBlockElement [lit "# no heading"; lit "**x**"]) =
    JS.join [lit "# no heading"; lit "**x**"].
Proof.
  apply (fenced_code_verbatim (lit "```js") [lit "# no heading"; lit "**x**"]).
  - reflexivity.
  - simpl. intuition discriminate.
  - repeat constructor; simpl; intuition discriminate.
  - reflexivity.
Defined.

Lemma isLineTerminator_cases (c : char) :
  JS.isLineTerminator c = true ->
  c = LF \/ c = CR \/ c = 8232%N \/ c = 8233%N.
Proof.
  unfold JS.isLineTerminator. rewrite !orb_true_iff, !N.eqb_eq. tauto.
Qed.

Lemma segment_classified (lines : list str) :
  Forall (fun l => opensCode l = false /\ classify l <> None) lines ->
  Forall2 (fun l b => classify l = Some b) lines (segment None lines).
Proof.
  induction 1 as [|l lines [Ho Hc] H IH]; [constructor|].
  cbn [segment]. rewrite Ho. destruct (classify l) eqn:E; [|congruence].
  now constructor.
Qed.

(** X10.  In a message without carriage returns, line separators and
    paragraph separators and without a run of three backticks, every
    line gives exactly one block, in order: the blocks are the
    classifications of the lines, and the rendered elements are as
    many as the lines. *)
Theorem one_block_per_line (message : str) :
  ~ In CR message -> ~ In 8232%N message -> ~ In 8233%N message ->
  JS.includes fence message = false ->
  Forall2 (fun l b => classify l = Some b) (JS.split message) (segmentBlocks message) /\
  exists es, parseMarkdown message = Some es /\
             length es = length (JS.split message).
Proof.
  intros H1 H2 H3 Hf.
  assert (H : Forall (fun l => opensCode l = false /\ classify l <> None)
                     (JS.split message)).
  { pose proof (no_fence_lines _ Hf) as Ho. rewrite Forall_forall in Ho.
    apply Forall_forall. intros l Hl. split; [now apply Ho|].
    intros Hn. apply classify_none_iff in Hn as (digits & c & r & Hp & Hr).
    apply orderedPrefix_found in Hp as (E & _).
    apply existsb_exists in Hr as (x & Hx & Hlt).
    assert (Hxl : In x l).
    { rewrite E. apply in_or_app. right. right. now right. }
    pose proof (line_char_in _ _ _ Hl Hxl) as Hxm.
    destruct (split_lines_in _ _ Hl) as [Hnl _].
    apply isLineTerminator_cases in Hlt as [-> | [-> | [-> | ->]]]; contradiction. }
  split; [now apply segment_classified|].
  rewrite parseMarkdown_segments.
  destruct (renderBlocks_total (segmentBlocks message)) as [es Hes].
  exists es. split; [assumption|].
  rewrite (renderBlocks_length _ _ Hes). now apply segment_length.
Qed.

Lemma one_block_per_line_witness :
  Forall2 (fun l b => classify l = Some b)
    (JS.split (lit "# Plan" ++ LF :: lit "1. first" ++ LF :: lit "" ++ LF :: lit "done"))
    (segmentBlocks
       (lit "# Plan" ++ LF :: lit "1. first" ++ LF :: lit "" ++ LF :: lit "done")) /\
  exists es,
    parseMarkdown
      (lit "# Plan" ++ LF :: lit "1. first" ++ LF :: lit "" ++ LF :: lit "done") = Some es /\
    length es =
      length (JS.split
                (lit "# Plan" ++ LF :: lit "1. first" ++ LF :: lit "" ++ LF :: lit "done")).
Proof.
  apply (one_block_per_line
           (lit "# Plan" ++ LF :: lit "1. first" ++ LF :: lit "" ++ LF :: lit "done"));
    try reflexivity; simpl; intuition discriminate.
Defined.

(** ** The detector and the parsers *)

Lemma startsWith_first (d : char) (p line : str) :
  JS.startsWith (d :: p) line = true -> In d line.
Proof.
  intros H. apply startsWith_prefix in H as [r ->]. now left.
Qed.

Lemma classify_plain (line : str) :
  ~ In 35%N line -> ~ In 96%N line -> ~ In 45%N line -> ~ In 42%N line ->
  JS.startsWith (lit "> ") line = false ->
  opensCode line = false /\
  match classify line with Some b => plainBlock b | None => True end.
Proof.
  intros H35 H96 H45 H42 Hq.
  assert (F : forall d p, ~ In d line -> JS.startsWith (d :: p) line = false).
  { intros d p Hd. destruct (JS.startsWith (d :: p) line) eqn:E; [|reflexivity].
    exfalso. apply Hd. now apply (startsWith_first d p). }
  unfold opensCode, classify. unfold fence.
  change (lit "# ") with (35%N :: lit " ").
  change (lit "## ") with (35%N :: lit "# ").
  change (lit "### ") with (35%N :: lit "## ").
  change (lit "```") with (96%N :: lit "``").
  change (lit "- ") with (45%N :: lit " ").
  change (lit "* ") with (42%N :: lit " ").
  rewrite !F by assumption. rewrite Hq. cbn [negb andb orb].
  split; [reflexivity|].
  destruct (RegExp.testAtStart RegExp.orderedTestRe line).
  - now destruct (RegExp.matchAtStart RegExp.orderedCaptureRe line).
  - now destruct (JS.truthy (JS.trim line)).
Qed.

Lemma segment_plain (lines : list str) :
  Forall (fun l => opensCode l = false /\
                   match classify l with Some b => plainBlock b | None => True end)
         lines ->
  Forall plainBlock (segment None lines).
Proof.
  induction 1 as [|l lines [Ho Hc] H IH]; [constructor|].
  cbn [segment]. rewrite Ho. destruct (classify l); [now constructor | assumption].
Qed.

(** X11.  When the detector answers false the message holds nothing
    that the parsers would treat as emphasis, as a link, as a heading,
    a code block, a blockquote or a bullet: no emphasis pattern and no
    link pattern matches in it, and each of its lines is a paragraph,
    an empty line or a numbered-list item. *)
Theorem detector_false_no_markup (message : str) :
  hasMarkdown message = false ->
  scanPatterns message patterns [] = Some [] /\
  findLinks message = Some [] /\
  Forall plainBlock (segmentBlocks message).
Proof.
  unfold hasMarkdown. intros H.
  apply orb_false_iff in H as [H H5]. apply orb_false_iff in H as [H H4].
  apply orb_false_iff in H as [H H3]. apply orb_false_iff in H as [H1 H2].
  assert (Hc : forall c, In c (lit "*_`#[]!-") -> ~ In c message).
  { intros c Hc Hin.
    assert (E : RegExp.test RegExp.markupCharRe message = true)
      by (apply markupCharRe_test; now exists c).
    congruence. }
  assert (H42 : ~ In 42%N message) by (apply Hc; simpl; tauto).
  assert (H96 : ~ In 96%N message) by (apply Hc; simpl; tauto).
  assert (H35 : ~ In 35%N message) by (apply Hc; simpl; tauto).
  assert (H45 : ~ In 45%N message) by (apply Hc; simpl; tauto).
  assert (H91 : ~ In 91%N message) by (apply Hc; simpl; tauto).
  repeat split.
  - now apply scanPatterns_without_delimiters.
  - destruct (findLinks_candidates message) as (mds & urls & Hm & Hu & ->).
    assert (Em : RegExp.test RegExp.markdownLinkRe message = false).
    { destruct (RegExp.test RegExp.markdownLinkRe message) eqn:E; [|reflexivity].
      exfalso. apply test_true in E as (a & b & -> & Hb). apply H91.
      apply in_or_app. right. unfold RegExp.markdownLinkRe in Hb.
      destruct b as [|c b]; [congruence|].
      destruct (N.eqb_spec c 91) as [->|Hne]; [now left|].
      exfalso. apply Hb. destruct c as [|p]; [reflexivity|].
      do 7 (destruct p; try reflexivity). congruence. }
    assert (Eu : RegExp.test RegExp.urlRe message = false).
    { destruct (RegExp.test RegExp.urlRe message) eqn:E; [|reflexivity].
      exfalso. apply test_true in E as (a & b & -> & Hb).
      assert (E : RegExp.test RegExp.schemeRe (a ++ b) = true); [|congruence].
      apply test_true. exists a, b. split; [reflexivity|].
      unfold RegExp.urlRe in Hb. unfold RegExp.schemeRe.
      now destruct (RegExp.scheme b) as [[pre r]|]. }
    apply test_false_matches in Em, Eu. rewrite Em in Hm. rewrite Eu in Hu.
    injection Hm as <-. injection Hu as <-. reflexivity.
  - apply segment_plain. apply Forall_forall. intros l Hl.
    apply classify_plain.
    + intros Hi. apply H35. exact (line_char_in _ _ _ Hl Hi).
    + intros Hi. apply H96. exact (line_char_in _ _ _ Hl Hi).
    + intros Hi. apply H45. exact (line_char_in _ _ _ Hl Hi).
    + intros Hi. apply H42. exact (line_char_in _ _ _ Hl Hi).
    + destruct (JS.startsWith (lit "> ") l) eqn:E; [|reflexivity].
      rewrite (line_prefix_in _ _ _ Hl E) in H3. discriminate.
Qed.

Lemma detector_false_no_markup_witness :
  scanPatterns (lit "Steps:" ++ LF :: lit "1. one") patterns [] = Some [] /\
  findLinks (lit "Steps:" ++ LF :: lit "1. one") = Some [] /\
  Forall plainBlock (segmentBlocks (lit "Steps:" ++ LF :: lit "1. one")).
Proof.
  apply (detector_false_no_markup (lit "Steps:" ++ LF :: lit "1. one")).
  reflexivity.
Defined.

Example numbered_item_after_first_line_not_detected :
  hasMarkdown (lit "Steps:" ++ LF :: lit "1. one") = false /\
  segmentBlocks (lit "Steps:" ++ LF :: lit "1. one") =
    [Paragraph (lit "Steps:"); ListItem (Some (lit "1")) (lit "one")].
Proof. split; reflexivity. Qed.

(** ** Pressable spans *)

Lemma pressTargets_snoc (els : list node) (e : node) :
  flat_map pressTargets (els ++ [e]) = flat_map pressTargets els ++ pressTargets e.
Proof. rewrite flat_map_app. simpl. now rewrite app_nil_r. Qed.

Lemma formatStep_no_press text (es : list formatMatch) : forall els cur,
  flat_map pressTargets els = [] ->
  flat_map pressTargets (fst (fold_left (formatStep text) es (els, cur))) = [].
Proof.
  induction es as [|e es IH]; intros els cur H; [exact H|].
  cbn [fold_left]. destruct (formatStep text (els, cur) e) as [els1 cur1] eqn:E.
  apply IH. unfold formatStep in E. injection E as <- _.
  rewrite pressTargets_snoc. cbn [pressTargets flat_map app]. rewrite app_nil_r.
  repeat match goal with
         | |- context [if ?b then _ else _] => destruct b
         end; try assumption.
  rewrite pressTargets_snoc, H. reflexivity.
Qed.

Lemma parseTextWithFormatting_no_press text n :
  parseTextWithFormatting text = Some n -> pressTargets n = [].
Proof.
  unfold parseTextWithFormatting.
  destruct (scanPatterns text patterns []) as [all|]; [|discriminate]. cbn [bind].
  assert (H : flat_map pressTargets (formatElements text all) = []).
  { unfold formatElements.
    pose proof (formatStep_no_press text (sortBy fm_index all) [] 0 eq_refl) as H.
    destruct (fold_left (formatStep text) (sortBy fm_index all) ([], 0))
      as [elements cur]. cbn [fst] in H.
    destruct (cur <? length text); [|assumption].
    destruct (JS.truthy _); [|assumption].
    rewrite pressTargets_snoc, H. reflexivity. }
  destruct (length (formatElements text all) =? 0); intros [= <-]; [reflexivity|].
  cbn [pressTargets app]. exact H.
Qed.

Lemma gap_no_press text :
  exists f, parseTextWithFormatting text = Some f /\ pressTargets (gap f) = [].
Proof.
  destruct (parseTextWithFormatting_total text) as [f Hf]. exists f.
  split; [assumption|]. unfold gap. cbn [pressTargets flat_map app].
  rewrite (parseTextWithFormatting_no_press _ _ Hf). reflexivity.
Qed.

Lemma linkStep_press (text : str) (ls : list linkEntry) : forall els cur,
  exists els' cur',
    fold_left (linkStep text) ls (Some (els, cur)) = Some (els', cur') /\
    flat_map pressTargets els' = flat_map pressTargets els ++ map link_url ls.
Proof.
  induction ls as [|l ls IH]; intros els cur.
  - exists els, cur. split; [reflexivity | now rewrite app_nil_r].
  - cbn [fold_left map].
    assert (H : exists els1,
               linkStep text (Some (els, cur)) l = Some (els1, link_end l) /\
               flat_map pressTargets els1 = flat_map pressTargets els ++ [link_url l]).
    { unfold linkStep. cbn [bind].
      destruct (cur <? link_start l); [|cbn [bind]; eexists; split; [reflexivity|];
                                         now rewrite pressTargets_snoc].
      destruct (JS.truthy _); [|cbn [bind]; eexists; split; [reflexivity|];
                                  now rewrite pressTargets_snoc].
      destruct (gap_no_press (JS.substring text cur (link_start l))) as (f & -> & Hg).
      cbn [bind]. eexists. split; [reflexivity|].
      rewrite !pressTargets_snoc, Hg, app_nil_r. reflexivity. }
    destruct H as (els1 & -> & H1).
    destruct (IH els1 (link_end l)) as (els' & cur' & -> & H2).
    exists els', cur'. split; [reflexivity|].
    now rewrite H2, H1, <- app_assoc.
Qed.

(** X12.  The pressable spans of an inline text are its link entries,
    in order, each bound to the URL of its entry; the spans between
    the links and the emphasis spans are never pressable. *)
Theorem pressable_spans_are_the_links (text : str) :
  exists all n,
    findLinks text = Some all /\
    parseInlineMarkdown text = Some n /\
    pressTargets n = map link_url all /\
    forall f, parseTextWithFormatting text = Some f -> pressTargets f = [].
Proof.
  destruct (findLinks_candidates text) as (mds & urls & Hm & Hu & Hf).
  destruct (parseInlineMarkdown_total text) as [n Hn].
  exists (sortBy link_start (candidates mds urls)), n.
  split; [exact Hf|]. split; [exact Hn|].
  split; [|apply parseTextWithFormatting_no_press].
  revert Hn. unfold parseInlineMarkdown.
  destruct (RegExp.test RegExp.markdownLinkRe text) eqn:Em;
    destruct (RegExp.test RegExp.urlRe text) eqn:Eu; cbn [negb andb].
  4:{ intros H. apply test_false_matches in Em, Eu.
      rewrite Em in Hm. rewrite Eu in Hu. injection Hm as <-. injection Hu as <-.
      cbn. now apply parseTextWithFormatting_no_press in H. }
  all: rewrite Hf; cbn [bind];
    destruct (linkStep_press text (sortBy link_start (candidates mds urls)) [] 0)
      as (els & cur & -> & H); cbn [bind flat_map app] in H |- *;
    destruct (cur <? length text);
    [ destruct (JS.truthy _);
      [ destruct (gap_no_press (JS.substringFrom text cur)) as (f & -> & Hg);
        cbn [bind]; intros [= <-]; cbn [pressTargets app];
        now rewrite pressTargets_snoc, Hg, app_nil_r
      | cbn [bind]; intros [= <-]; exact H ]
    | cbn [bind]; intros [= <-]; exact H ].
Qed.
